(** * Tic-tac-toe against the computer: the game engine of
      [src/components/tic-tac-toe.tsx]

    The development embeds the engine of the React component: the board,
    [calculateWinner], [findWinningMove], the three move strategies
    ([makeEasyMove], [makeMediumMove], [makeHardMove] with [minimax]) and the
    session transitions ([handleClick], [makeComputerMove], [resetGame],
    [handleDifficultyChange] and the status effect).

    Modelling decisions.
    - A square is ["X" | "O" | null]: [option Mark], [None] being [null].
      A board is the JS array, a [list]; reading [board[i]] is stdpp's lookup
      [board !! i], whose [None] is JS's [undefined].  Every array write of
      the source is at an index below the array's length, where stdpp's
      [<[i:=v]>] is the JS assignment.
    - [Math.random()] is a draw from [[0,1)], taken from a stream of draws
      that the strategy consumes in call order.  A draw is a double
      (IEEE-754 binary64), as every JS number is.  The literal [0.3] is the
      double nearest to 3/10, a comparison of two doubles compares their
      values, and the product of a draw with a length is the double nearest
      to the exact product, ties to even: the rounding of [SpecFloat], the
      specification of binary64 in Rocq's core library.  A length is an
      integer below [2^32], a double itself, and is taken as it is.
    - [minimax] writes into its argument and undoes the write; the model
      passes the array through every call and returns it.  Its recursion is
      bounded by fuel; enough fuel always gives a result ([minimax_total]).
    - JS numbers that can be infinite ([bestScore]) are [num]; scores and
      indices are integers.
    - A transition of the session is a handler followed by the status
      effect of the render it causes; the 500 ms timer is the guard of the
      computer's transition. *)

From Stdlib Require Import ZArith QArith Qround String.
From Corelib Require Import SpecFloat.
From stdpp Require Import base decidable option list.

Close Scope Q_scope.
Open Scope Z_scope.

(** ** Data *)

(** The two markers: ["X"] is the player's, ["O"] the computer's. *)
Inductive Mark : Type := MarkX | MarkO.

#[export] Instance Mark_eq_dec : EqDecision Mark.
Proof. solve_decision. Defined.

(** [type SquareValue = "X" | "O" | null]. *)
Abbreviation SquareValue := (option Mark).
Abbreviation Board := (list SquareValue).

(** [type Difficulty = "easy" | "medium" | "hard"]. *)
Inductive Difficulty : Type := easy | medium | hard.

(** A line of the board: the triple [[a, b, c]] of the source. *)
Abbreviation Line := (nat * nat * nat)%type.

(** The constant [lines], the same table in [calculateWinner] and in
    [findWinningMove]. *)
Definition lines : list Line :=
  [ (0, 1, 2); (3, 4, 5); (6, 7, 8);
    (0, 3, 6); (1, 4, 7); (2, 5, 8);
    (0, 4, 8); (2, 4, 6) ]%nat.

(** [v === null] for the value read from an array. *)
Definition is_null (v : option SquareValue) : bool :=
  match v with
  | Some None => true
  | _ => false
  end.

(** [v === player]. *)
Definition is_mark (player : Mark) (v : option SquareValue) : bool :=
  match v, player with
  | Some (Some MarkX), MarkX | Some (Some MarkO), MarkO => true
  | _, _ => false
  end.

(** [v === w] for two values read from an array. *)
Definition strict_eq (v w : option SquareValue) : bool :=
  match v, w with
  | None, None | Some None, Some None => true
  | Some (Some MarkX), Some (Some MarkX) => true
  | Some (Some MarkO), Some (Some MarkO) => true
  | _, _ => false
  end.

(** [Array(9).fill(null)]. *)
Definition emptyBoard : Board := replicate 9 None.

(** JS numbers as far as the search uses them: integers and the two
    infinities [bestScore] starts from. *)
Inductive num : Type := NegInf | Fin (z : Z) | PosInf.

(** [Math.max(a, b)]. *)
Definition num_max (a b : num) : num :=
  match a, b with
  | PosInf, _ | _, PosInf => PosInf
  | NegInf, y => y
  | x, NegInf => x
  | Fin x, Fin y => Fin (Z.max x y)
  end.

(** [Math.min(a, b)]. *)
Definition num_min (a b : num) : num :=
  match a, b with
  | NegInf, _ | _, NegInf => NegInf
  | PosInf, y => y
  | x, PosInf => x
  | Fin x, Fin y => Fin (Z.min x y)
  end.

(** [a > b]. *)
Definition num_gt (a b : num) : bool :=
  match a, b with
  | NegInf, _ | _, PosInf => false
  | _, NegInf | PosInf, _ => true
  | Fin x, Fin y => y <? x
  end.

(** ** Outcome evaluation *)

(** The loop of [calculateWinner] over a suffix of [lines]: the first line
    whose three squares hold the same truthy value. *)
Fixpoint calculateWinner_from (ls : list Line) (squares : Board)
  : option (Mark * Line) :=
  match ls with
  | [] => None
  | (a, b, c) :: rest =>
      match squares !! a with
      | Some (Some p) =>
          if strict_eq (squares !! a) (squares !! b)
             && strict_eq (squares !! a) (squares !! c)
          then Some (p, (a, b, c))
          else calculateWinner_from rest squares
      | _ => calculateWinner_from rest squares
      end
  end.

(** [calculateWinner(squares)]: [{ player, line }] or [null]. *)
Definition calculateWinner (squares : Board) : option (Mark * Line) :=
  calculateWinner_from lines squares.

(** [board.every((cell) => cell !== null)]. *)
Definition every_nonnull (board : Board) : bool :=
  forallb (fun cell => match cell with None => false | Some _ => true end)
    board.

(** The three-way test of the status effect and of [minimax]: a winner,
    else a full board, else the game goes on. *)
Inductive Outcome : Type :=
| Won (marker : Mark) (line : Line)
| Draw
| InProgress.

Definition evaluate (squares : Board) : Outcome :=
  match calculateWinner squares with
  | Some (p, l) => Won p l
  | None => if every_nonnull squares then Draw else InProgress
  end.

(** ** The helper shared by the strategies *)

(** The loop of [findWinningMove] over a suffix of [lines]; the result is
    the index of the empty square of the first line that [player] can
    complete, or [-1]. *)
Fixpoint findWinningMove_from (ls : list Line) (board : Board) (player : Mark)
  : Z :=
  match ls with
  | [] => -1
  | (a, b, c) :: rest =>
      if (is_mark player (board !! a) && is_mark player (board !! b)
            && is_null (board !! c))
         || (is_mark player (board !! a) && is_null (board !! b)
               && is_mark player (board !! c))
         || (is_null (board !! a) && is_mark player (board !! b)
               && is_mark player (board !! c))
      then
        if is_null (board !! a) then Z.of_nat a
        else if is_null (board !! b) then Z.of_nat b
        else Z.of_nat c
      else findWinningMove_from rest board player
  end.

Definition findWinningMove (board : Board) (player : Mark) : Z :=
  findWinningMove_from lines board player.

(** ** Doubles *)

(** A JS number is a double.  [double_of m e] is the double nearest to
    [m * 2^e], ties to even: the result that IEEE-754 gives an operation
    whose exact result is [m * 2^e]. *)
Definition double_of (m e : Z) : spec_float :=
  binary_normalize 53 1024 m e false.

(** [Math.floor(x)] for a finite [x].  The strategies apply it to the
    product of a draw and an array length, which is finite and not negative
    ([product_finite]); the [0] of the last case stands for the infinities
    and NaN, which [Math.floor] returns unchanged. *)
Definition double_floor (x : spec_float) : Z :=
  match x with
  | S754_finite s m e =>
      let z := if s then Zneg m else Zpos m in
      if 0 <=? e then z * 2 ^ e else z / 2 ^ (- e)
  | _ => 0
  end.

(** ** Random draws *)

(** [m * 2^-k] is a double in [[0, 1)]: a significand of at most 53 bits
    and an exponent not below that of the subnormal numbers. *)
Definition is_unit_double (m k : Z) : bool :=
  (0 <=? m) && (m <? 2 ^ 53) && (m <? 2 ^ k) && (0 <=? k) && (k <=? 1074).

(** A result of [Math.random()]: a double in [[0, 1)],
    [draw_num * 2^-draw_exp]. *)
Record draw : Type := mkDraw {
  draw_num : Z;
  draw_exp : Z;
  draw_ok : is_unit_double draw_num draw_exp = true
}.

(** The value of a draw. *)
Definition draw_val (r : draw) : Q :=
  draw_num r # Z.to_pos (2 ^ draw_exp r).

(** The value of the literal [0.3]: the double nearest to 3/10, which is
    [5404319552844595 * 2^-54], just below 3/10.  The literal [0.5] is the
    double [1 # 2]. *)
Definition double_0_3 : Q := 5404319552844595 # 18014398509481984.

(** The source of draws: the results of the successive calls. *)
Definition rng : Type := nat -> draw.

(** Computations that call [Math.random()]. *)
Definition Rand (A : Type) : Type := rng -> A * rng.

Definition ret {A} (a : A) : Rand A := fun g => (a, g).

Definition bind {A B} (m : Rand A) (k : A -> Rand B) : Rand B :=
  fun g => let '(a, g') := m g in k a g'.

(** One call of [Math.random()]. *)
Definition random : Rand draw :=
  fun g => (g 0%nat, fun n => g (S n)).

Notation "'let*' x ':=' m 'in' k" := (bind m (fun x => k))
  (at level 10, x name, m at level 100, k at level 200).

(** [Math.random() < q] for a double of value [q]: two doubles compare as
    their values do. *)
Definition draw_lt (r : draw) (q : Q) : bool :=
  if Qlt_le_dec (draw_val r) q then true else false.

(** [Math.floor(r * n)]: the floor of the double that the product is. *)
Definition floor_mul (r : draw) (n : nat) : nat :=
  Z.to_nat
    (double_floor (double_of (draw_num r * Z.of_nat n) (- draw_exp r))).

(** [xs[Math.floor(Math.random() * xs.length)]] for a non-empty [xs]; the
    index is below the length ([floor_mul_lt]), so the default is not
    reached. *)
Definition pick (xs : list Z) (r : draw) : Z :=
  nth (floor_mul r (length xs)) xs (-1).

(** ** Strategies *)

(** [board.map((square, i) => (square === null ? i : -1))
         .filter((i) => i !== -1)]. *)
Definition availableMoves (board : Board) : list Z :=
  filter (fun i => i <> -1)
    (imap (fun i square => if bool_decide (square = None)
                           then Z.of_nat i else -1) board).

(** The tail shared by [makeEasyMove] and [makeMediumMove]: a random
    available square, [-1] when there is none. *)
Definition randomMove (board : Board) : Rand Z :=
  let moves := availableMoves board in
  if (0 <? length moves)%nat
  then let* r := random in ret (pick moves r)
  else ret (-1).

(** [makeEasyMove(board)]. *)
Definition makeEasyMove (board : Board) : Rand Z :=
  let* r1 := random in
  if draw_lt r1 double_0_3 then
    let winningMove := findWinningMove board MarkO in
    if negb (winningMove =? -1) then ret winningMove
    else
      let* r2 := random in
      if draw_lt r2 (1 # 2) then
        let blockingMove := findWinningMove board MarkX in
        if negb (blockingMove =? -1) then ret blockingMove
        else randomMove board
      else randomMove board
  else randomMove board.

(** [makeMediumMove(board)]. *)
Definition makeMediumMove (board : Board) : Rand Z :=
  let winningMove := findWinningMove board MarkO in
  if negb (winningMove =? -1) then ret winningMove
  else
    let blockingMove := findWinningMove board MarkX in
    if negb (blockingMove =? -1) then ret blockingMove
    else if is_null (board !! 4%nat) then ret 4
    else
      let corners := [0; 2; 6; 8] in
      let availableCorners :=
        filter (fun i => board !! Z.to_nat i = Some None) corners in
      if (0 <? length availableCorners)%nat
      then let* r := random in ret (pick availableCorners r)
      else randomMove board.

(** A [for (let i = 0; i < n; i++)] loop over a state, the body of which may
    run out of fuel. *)
Fixpoint for_each {S : Type} (body : nat -> S -> option S)
  (indices : list nat) (s : S) : option S :=
  match indices with
  | [] => Some s
  | i :: rest =>
      match body i s with
      | Some s' => for_each body rest s'
      | None => None
      end
  end.

(** [minimax(board, depth, isMaximizing)].  The result is the score and the
    array as the call leaves it. *)
Fixpoint minimax (fuel : nat) (board : Board) (depth : Z)
  (isMaximizing : bool) : option (num * Board) :=
  match fuel with
  | O => None
  | S fuel' =>
      match calculateWinner board with
      | Some (MarkO, _) => Some (Fin (10 - depth), board)
      | Some (MarkX, _) => Some (Fin (depth - 10), board)
      | None =>
          if every_nonnull board then Some (Fin 0, board)
          else if isMaximizing then
            for_each
              (fun i '(bestScore, board) =>
                 if is_null (board !! i) then
                   let board := <[i := Some MarkO]> board in
                   match minimax fuel' board (depth + 1) false with
                   | Some (score, board) =>
                       let board := <[i := None]> board in
                       Some (num_max score bestScore, board)
                   | None => None
                   end
                 else Some (bestScore, board))
              (seq 0 (length board)) (NegInf, board)
          else
            for_each
              (fun i '(bestScore, board) =>
                 if is_null (board !! i) then
                   let board := <[i := Some MarkX]> board in
                   match minimax fuel' board (depth + 1) true with
                   | Some (score, board) =>
                       let board := <[i := None]> board in
                       Some (num_min score bestScore, board)
                   | None => None
                   end
                 else Some (bestScore, board))
              (seq 0 (length board)) (PosInf, board)
      end
  end.

(** The minimax loop of [makeHardMove]: the state is [bestScore],
    [bestMove] and the array. *)
Definition hardLoop (fuel : nat) (board : Board)
  : option (num * Z * Board) :=
  for_each
    (fun i '(bestScore, bestMove, board) =>
       if is_null (board !! i) then
         let board := <[i := Some MarkO]> board in
         match minimax fuel board 0 false with
         | Some (score, board) =>
             let board := <[i := None]> board in
             if num_gt score bestScore
             then Some (score, Z.of_nat i, board)
             else Some (bestScore, bestMove, board)
         | None => None
         end
       else Some (bestScore, bestMove, board))
    (seq 0 (length board)) (NegInf, -1, board).

(** [board.filter((cell) => cell === null).length]. *)
Definition emptyCells (board : Board) : nat :=
  length (filter (fun cell => cell = None) board).

(** [makeHardMove(board)]: the move and the array as the call leaves it. *)
Definition makeHardMove (fuel : nat) (board : Board)
  : Rand (option (Z * Board)) :=
  if (emptyCells board =? 9)%nat then ret (Some (4, board))
  else if (emptyCells board =? 8)%nat && is_mark MarkX (board !! 4%nat) then
    let* r := random in ret (Some (pick [0; 2; 6; 8] r, board))
  else
    ret (match hardLoop fuel board with
         | Some (_, bestMove, board) => Some (bestMove, board)
         | None => None
         end).

(** ** The session *)

(** The state of the component: the five [useState] cells. *)
Record Session : Type := mkSession {
  squares : Board;
  isPlayerTurn : bool;
  gameOver : bool;
  status : string;
  difficulty : Difficulty
}.

(** The state at mount. *)
Definition initial : Session :=
  {| squares := emptyBoard;
     isPlayerTurn := true;
     gameOver := false;
     status := "Your turn (X)";
     difficulty := medium |}.

(** A value read from the array used as a condition: [squares[i]] is truthy
    when it is ["X"] or ["O"]. *)
Definition truthy (v : option SquareValue) : bool :=
  match v with
  | Some (Some _) => true
  | _ => false
  end.

(** [handleClick(i)].  The view calls it with [i] from 0 to 8 only. *)
Definition handleClick (i : nat) (s : Session) : Session :=
  if gameOver s || truthy (squares s !! i) || negb (isPlayerTurn s) then s
  else
    let newSquares := squares s in
    let newSquares := <[i := Some MarkX]> newSquares in
    {| squares := newSquares;
       isPlayerTurn := false;
       gameOver := gameOver s;
       status := status s;
       difficulty := difficulty s |}.

(** The effect "Update game status", run after a render in which the
    squares, the turn or the winner changed. *)
Definition statusEffect (s : Session) : Session :=
  match calculateWinner (squares s) with
  | Some (player, _) =>
      {| squares := squares s;
         isPlayerTurn := isPlayerTurn s;
         gameOver := true;
         status := if bool_decide (player = MarkX)
                   then "You win!" else "Computer wins!";
         difficulty := difficulty s |}
  | None =>
      if every_nonnull (squares s) then
        {| squares := squares s;
           isPlayerTurn := isPlayerTurn s;
           gameOver := true;
           status := "It's a draw!";
           difficulty := difficulty s |}
      else
        {| squares := squares s;
           isPlayerTurn := isPlayerTurn s;
           gameOver := gameOver s;
           status := if isPlayerTurn s
                     then "Your turn (X)" else "Computer's turn (O)...";
           difficulty := difficulty s |}
  end.

(** The [switch (difficulty)] of [makeComputerMove]: the move of the
    selected strategy and the array as the call leaves it.  [makeEasyMove]
    and [makeMediumMove] contain no assignment to the array. *)
Definition strategyMove (fuel : nat) (d : Difficulty) (newSquares : Board)
  : Rand (option (Z * Board)) :=
  match d with
  | easy => let* move := makeEasyMove newSquares in
            ret (Some (move, newSquares))
  | medium => let* move := makeMediumMove newSquares in
              ret (Some (move, newSquares))
  | hard => makeHardMove fuel newSquares
  end.

(** [makeComputerMove()], called when the 500 ms timer fires. *)
Definition makeComputerMove (fuel : nat) (s : Session)
  : Rand (option Session) :=
  let newSquares := squares s in
  let* r := strategyMove fuel (difficulty s) newSquares in
  ret (match r with
       | Some (move, newSquares) =>
           if negb (move =? -1) then
             let newSquares := <[Z.to_nat move := Some MarkO]> newSquares in
             Some {| squares := newSquares;
                     isPlayerTurn := true;
                     gameOver := gameOver s;
                     status := status s;
                     difficulty := difficulty s |}
           else
             Some {| squares := squares s;
                     isPlayerTurn := true;
                     gameOver := gameOver s;
                     status := status s;
                     difficulty := difficulty s |}
       | None => None
       end).

(** [resetGame()]. *)
Definition resetGame (s : Session) : Session :=
  {| squares := emptyBoard;
     isPlayerTurn := true;
     gameOver := false;
     status := "Your turn (X)";
     difficulty := difficulty s |}.

(** [handleDifficultyChange(value)]. *)
Definition handleDifficultyChange (value : Difficulty) (s : Session)
  : Session :=
  resetGame {| squares := squares s;
               isPlayerTurn := isPlayerTurn s;
               gameOver := gameOver s;
               status := status s;
               difficulty := value |}.

(** The transitions of the session.  Each handler is followed by the status
    effect of the render it causes.  The timer of the computer's move is
    armed only while [!isPlayerTurn && !gameOver] and is cleared when either
    flag changes, so it fires in such a state only. *)
Inductive step (s : Session) : Session -> Prop :=
| step_click (i : nat) :
    (i < 9)%nat ->
    step s (statusEffect (handleClick i s))
| step_computer (fuel : nat) (g : rng) (s1 : Session) :
    isPlayerTurn s = false ->
    gameOver s = false ->
    fst (makeComputerMove fuel s g) = Some s1 ->
    step s (statusEffect s1)
| step_reset :
    step s (statusEffect (resetGame s))
| step_difficulty (value : Difficulty) :
    step s (statusEffect (handleDifficultyChange value s)).

(** The states a session can be in. *)
Inductive reachable : Session -> Prop :=
| reach_initial : reachable (statusEffect initial)
| reach_step s s' : reachable s -> step s s' -> reachable s'.


(** ** The view's projection of the session *)

(** [const winningLine = winner ? winner.line : []]. *)
Definition winningLine (squares : Board) : list nat :=
  match calculateWinner squares with
  | Some (_, (a, b, c)) => [a; b; c]
  | None => []
  end.

(** The prop [winningSquare={winningLine.includes(i)}] of square [i]. *)
Definition winningSquare (squares : Board) (i : nat) : bool :=
  bool_decide (i ∈ winningLine squares).

(** The attribute [disabled={!!value}] of a square showing [value]. *)
Definition disabled (value : option SquareValue) : bool := truthy value.

(** * The vocabulary of the properties

    Predicates, tests and concrete inputs the statements below are
    written with; none of them is part of the program. *)

(** The number of squares that hold [m]. *)
Definition countMark (m : Mark) (board : Board) : nat :=
  length (filter (fun cell => cell = Some m) board).

(** A line is complete for [p] when its three squares hold [p]. *)
Definition complete (squares : Board) (l : Line) (p : Mark) : Prop :=
  let '(a, b, c) := l in
  squares !! a = Some (Some p) /\ squares !! b = Some (Some p)
  /\ squares !! c = Some (Some p).

#[export] Instance complete_dec squares l p : Decision (complete squares l p).
Proof. destruct l as [[a b] c]. simpl. apply _. Defined.

(** No line of [ls] is complete. *)
Definition none_complete (ls : list Line) (squares : Board) : Prop :=
  forall l q, l ∈ ls -> ~ complete squares l q.

(** Filling square [i] with [p] completes line [l]: the line is complete for
    [p] afterwards and was not before. *)
Definition fills (board : Board) (p : Mark) (i : nat) (l : Line) : Prop :=
  complete (<[i := Some p]> board) l p /\ ~ complete board l p.

(** An immediate winning move of [p]: an empty square whose filling with
    [p] completes a line.  For the opponent's marker these are the squares
    that block. *)
Definition winningMove (board : Board) (p : Mark) (i : nat) : Prop :=
  board !! i = Some None /\ Exists (fills board p i) lines.

(** The three indices of a line differ. *)
Definition distinct3 (l : Line) : Prop :=
  let '(a, b, c) := l in a <> b /\ a <> c /\ b <> c.

(** The body of the two loops of [minimax]: on an empty square, write the
    mark, score the position with [rec], erase the mark and combine. *)
Definition searchBody (rec : Board -> option (num * Board)) (mark : Mark)
  (combine : num -> num -> num) (i : nat) (st : num * Board)
  : option (num * Board) :=
  let '(bestScore, board) := st in
  if is_null (board !! i) then
    let board := <[i := Some mark]> board in
    match rec board with
    | Some (score, board) =>
        let board := <[i := None]> board in
        Some (combine score bestScore, board)
    | None => None
    end
  else Some (bestScore, board).

(** A score that is a number, not an infinity. *)
Definition finite (n : num) : Prop := exists z, n = Fin z.

(** The body of the loop of [makeHardMove]. *)
Definition hardBody (fuel : nat) (i : nat) (st : num * Z * Board)
  : option (num * Z * Board) :=
  let '(bestScore, bestMove, board) := st in
  if is_null (board !! i) then
    let board := <[i := Some MarkO]> board in
    match minimax fuel board 0 false with
    | Some (score, board) =>
        let board := <[i := None]> board in
        if num_gt score bestScore
        then Some (score, Z.of_nat i, board)
        else Some (bestScore, bestMove, board)
    | None => None
    end
  else Some (bestScore, bestMove, board).

(** A move a strategy may return on [board]: [-1] or the index of an empty
    square, and [-1] exactly when no square is empty. *)
Definition validMove (board : Board) (move : Z) : Prop :=
  (move = -1 \/ (0 <= move /\ board !! Z.to_nat move = Some None))
  /\ (move = -1 <-> forall i, board !! i <> Some None).

(** [winningMove] as a test. *)
Definition winningMoveb (board : Board) (p : Mark) (i : nat) : bool :=
  is_null (board !! i)
  && existsb
       (fun l : Line =>
          let '(a, b, c) := l in
          ((i =? a)%nat && is_mark p (board !! b) && is_mark p (board !! c))
          || ((i =? b)%nat && is_mark p (board !! a) && is_mark p (board !! c))
          || ((i =? c)%nat && is_mark p (board !! a) && is_mark p (board !! b)))
       lines.

(** The boards of [n] squares. *)
Fixpoint boards (n : nat) : list Board :=
  match n with
  | O => [[]]
  | S n' => b ← boards n'; [None :: b; Some MarkX :: b; Some MarkO :: b]
  end.

(** The moves [makeHardMove] can return on a board, over all outcomes of
    its draw; the search runs with fuel for nine squares. *)
Definition hardMoves (board : Board) : list Z :=
  if (emptyCells board =? 9)%nat then [4]
  else if (emptyCells board =? 8)%nat && is_mark MarkX (board !! 4%nat)
       then [0; 2; 6; 8]
       else match hardLoop 9 board with
            | Some (_, bestMove, _) => [bestMove]
            | None => []
            end.

(** On a board without a complete line where the computer can win at
    once, every move of [makeHardMove] is such a win. *)
Definition hardTakesWin (board : Board) : bool :=
  if bool_decide (calculateWinner board = None)
     && negb (findWinningMove board MarkO =? -1)
  then forallb (fun m => (0 <=? m) && winningMoveb board MarkO (Z.to_nat m))
         (hardMoves board)
  else true.

(** Two different squares at which [p] wins at once. *)
Definition twoWinningMoves (board : Board) (p : Mark) : bool :=
  existsb (fun i =>
    existsb (fun j => negb (i =? j)%nat && winningMoveb board p i
                      && winningMoveb board p j) (seq 0 9)) (seq 0 9).

(** On a board without a complete line where the computer cannot win at
    once and the opponent can, every move of [makeHardMove] blocks, unless
    the opponent can win at two squares. *)
Definition hardBlocks (board : Board) : bool :=
  if bool_decide (calculateWinner board = None)
     && (findWinningMove board MarkO =? -1)
     && negb (findWinningMove board MarkX =? -1)
  then if twoWinningMoves board MarkX then true
       else forallb
              (fun m => (0 <=? m) && winningMoveb board MarkX (Z.to_nat m))
              (hardMoves board)
  else true.

(** The squares at which [p] wins at once, in ascending order. *)
Definition winningCells (board : Board) (p : Mark) : list nat :=
  filter (fun i => winningMoveb board p i = true) (seq 0 (length board)).

(** The draw [0]. *)
Definition draw0 : draw := mkDraw 0 0 eq_refl.

(** The source whose every draw is [r]. *)
Definition constRng (r : draw) : rng := fun _ => r.

(** [[O,O,_, X,X,_, _,_,_]]: the computer wins at 2. *)
Definition boardWinAt2 : Board :=
  [Some MarkO; Some MarkO; None; Some MarkX; Some MarkX; None; None; None; None].

(** [[X,X,_, _,O,_, _,_,_]]: the player threatens at 2. *)
Definition boardThreatAt2 : Board :=
  [Some MarkX; Some MarkX; None; None; Some MarkO; None; None; None; None].

(** [[X,X,X, _,_,_, O,O,_]]: the player has completed the top row, and the
    computer can complete the bottom row at 8. *)
Definition boardWonAlready : Board :=
  [Some MarkX; Some MarkX; Some MarkX; None; None; None;
   Some MarkO; Some MarkO; None].

(** [[O,_,X, O,_,_, X,_,X]]: the player threatens at 4, 5 and 7. *)
Definition boardFork : Board :=
  [Some MarkO; None; Some MarkX; Some MarkO; None; None;
   Some MarkX; None; Some MarkX].

(** A state between renders: nine squares, the status effect has run, and
    the game is flagged over only on a finished board. *)
Definition settled (s : Session) : Prop :=
  length (squares s) = 9%nat
  /\ statusEffect s = s
  /\ (gameOver s = true -> evaluate (squares s) <> InProgress).

(** The player's marks number the computer's when the player is to move,
    and one more when the computer is. *)
Definition balanced (s : Session) : Prop :=
  if isPlayerTurn s
  then countMark MarkX (squares s) = countMark MarkO (squares s)
  else countMark MarkX (squares s) = S (countMark MarkO (squares s)).

(** A session after the click on the centre and the medium strategy's
    answer. *)
Definition afterOneRound : Session :=
  statusEffect
    {| squares := <[0%nat := Some MarkO]>
                    (<[4%nat := Some MarkX]> emptyBoard);
       isPlayerTurn := true;
       gameOver := false;
       status := "Computer's turn (O)...";
       difficulty := medium |}.

(** The mapping from the session's state to its status text, over the two
    texts shown while the game goes on: the player's turn, the computer's
    turn, and the three ways the game ends.  No text is given to a state
    flagged over on a board in progress. *)
Definition statusMapping (yourTurn computersTurn : string) (s : Session)
  : option string :=
  if gameOver s then
    match evaluate (squares s) with
    | Won MarkX _ => Some "You win!"
    | Won MarkO _ => Some "Computer wins!"
    | Draw => Some "It's a draw!"
    | InProgress => None
    end%string
  else if isPlayerTurn s then Some yourTurn
  else Some computersTurn.

(** The computer's answer [m] to the board [b1] keeps the player from ever
    winning, [rec] judging the boards on which the player moves next. *)
Definition answerSafe (rec : Board -> bool) (b1 : Board) (m : Z) : bool :=
  if m <? 0 then false
  else
    let b2 := <[Z.to_nat m := Some MarkO]> b1 in
    match evaluate b2 with
    | Won MarkX _ => false
    | Won MarkO _ | Draw => true
    | InProgress => rec b2
    end.

(** On [board], the player to move, no sequence of at most [n] player moves
    against [makeHardMove] ends in a win of the player: every empty square
    is tried, and every move [makeHardMove] can answer with. *)
Fixpoint playerNeverWins (n : nat) (board : Board) : bool :=
  match n with
  | O => false
  | S n' =>
      forallb
        (fun i =>
           if is_null (board !! i) then
             let b1 := <[i := Some MarkX]> board in
             match evaluate b1 with
             | Won MarkX _ => false
             | Won MarkO _ | Draw => true
             | InProgress =>
                 forallb (answerSafe (playerNeverWins n') b1) (hardMoves b1)
             end
           else true)
        (seq 0 9)
  end.

(** What the exploration establishes of a session state: the player has not
    won, and cannot from here. *)
Definition hardSafe (s : Session) : Prop :=
  match evaluate (squares s) with
  | Won MarkX _ => False
  | Won MarkO _ | Draw => True
  | InProgress =>
      exists n,
        if isPlayerTurn s then playerNeverWins n (squares s) = true
        else forallb (answerSafe (playerNeverWins n) (squares s))
               (hardMoves (squares s)) = true
  end.

(** A session set to hard, after the click on the centre and the answer of
    [makeHardMove] in a corner. *)
Definition afterOneHardRound : Session :=
  statusEffect
    {| squares := <[0%nat := Some MarkO]>
                    (<[4%nat := Some MarkX]> emptyBoard);
       isPlayerTurn := true;
       gameOver := false;
       status := "Computer's turn (O)...";
       difficulty := hard |}.





(** The score [makeHardMove] gives the empty square [i]: that of the board
    with the computer's mark written there, the opponent to move. *)
Definition hardScore (fuel : nat) (board : Board) (i : nat) : option num :=
  match minimax fuel (<[i := Some MarkO]> board) 0 false with
  | Some (score, _) => Some score
  | None => None
  end.

(** The session after [resetGame] and its render, for a difficulty. *)
Definition freshSession (d : Difficulty) : Session :=
  {| squares := emptyBoard;
     isPlayerTurn := true;
     gameOver := false;
     status := "Your turn (X)";
     difficulty := d |}.

(** The mark of the side to move. *)
Definition moverMark (s : Session) : Mark :=
  if isPlayerTurn s then MarkX else MarkO.

(** The session after the first click, on the centre. *)
Definition afterCentreClick : Session :=
  statusEffect (handleClick 4 (statusEffect initial)).

(** A click and the render it causes. *)
Definition clickAndSettle (i : nat) (s : Session) : Session :=
  statusEffect (handleClick i s).

(** The computer's move with the draws [g] and fuel for nine squares, and
    the render it causes. *)
Definition computerAndSettle (g : rng) (s : Session) : Session :=
  match fst (makeComputerMove 9 s g) with
  | Some s1 => statusEffect s1
  | None => s
  end.

(** A click and the computer's answer, every draw being 0. *)
Definition playRound (i : nat) (s : Session) : Session :=
  computerAndSettle (constRng draw0) (clickAndSettle i s).

(** The game of the clicks 4, 8, 1, 3, 6 against the medium strategy, which
    answers 0, 2, 7, 5: the board [[O,X,O, X,X,O, X,O,X]]. *)
Definition drawnGame : Session :=
  clickAndSettle 6
    (playRound 3 (playRound 1 (playRound 8 (playRound 4 (statusEffect initial))))).

(** The first line of a table, in its order, on which [player] has a
    winning move at [i]. *)
Definition firstFilled (ls : list Line) (board : Board) (player : Mark)
  (i : nat) : Prop :=
  exists pre l post,
    ls = pre ++ l :: post
    /\ board !! i = Some None /\ fills board player i l
    /\ forall l' j, l' ∈ pre -> board !! j = Some None ->
                    ~ fills board player j l'.

(** What the score of a board at a depth must be: the value of a finished
    board, and within one of it for a board in progress. *)
Definition scoreInRange (board : Board) (depth z : Z) : Prop :=
  match evaluate board with
  | Won MarkO _ => z = 10 - depth
  | Won MarkX _ => z = depth - 10
  | Draw => z = 0
  | InProgress => depth - 9 <= z <= 9 - depth
  end.

(** The list of available moves of a board whose first square has index
    [k]. *)
Definition availableFrom (k : nat) (board : Board) : list Z :=
  filter (fun i => i <> -1)
    (imap (fun i (square : SquareValue) =>
             if bool_decide (square = None) then Z.of_nat (k + i) else -1)
       board).

(** The integer [M] rounded to 53 significant bits, ties to even: the pair
    [(q, s)] stands for [q * 2^s].  It is the rounding of [double_of] in
    the terms of integer division ([double_floor_of]). *)
Definition round53 (M : Z) : Z * Z :=
  let bits := Z.log2 M + 1 in
  if bits <=? 53 then (M, 0)
  else
    let s := bits - 53 in
    let q := M / 2 ^ s in
    let rest := M mod 2 ^ s in
    let half := 2 ^ (s - 1) in
    if (half <? rest) || ((rest =? half) && Z.odd q) then (q + 1, s)
    else (q, s).

(** A finite double that is zero or positive. *)
Definition nonneg_finite (x : spec_float) : bool :=
  match x with
  | S754_zero false | S754_finite false _ _ => true
  | _ => false
  end.


(** The draw [0.3]: the literal's own double. *)
Definition drawAtThreshold : draw := mkDraw 5404319552844595 54 eq_refl.

(** The draw [0.875]. *)
Definition drawSevenEighths : draw := mkDraw 7 3 eq_refl.

(** The draw [0.6666666666666666], the double nearest to 2/3 and below
    it. *)
Definition drawBelowTwoThirds : draw := mkDraw 6004799503160661 53 eq_refl.

(** The draws [0.3, 0.875, 0.875, ...]. *)
Definition thresholdThenSevenEighths : rng :=
  fun n => match n with O => drawAtThreshold | S _ => drawSevenEighths end.

(** [[O,O,_, X,X,_, _,_,_]]: each side has a winning square. *)
Definition boardTwoThreats : Board :=
  [ Some MarkO; Some MarkO; None;
    Some MarkX; Some MarkX; None;
    None; None; None ].

(** [[X,_,_, _,O,X, _,_,_]]: no winning square, the centre taken, three
    corners empty. *)
Definition boardCentreTaken : Board :=
  [ Some MarkX; None; None;
    None; Some MarkO; Some MarkX;
    None; None; None ].

(** * Properties *)

(** ** The outcome evaluator *)

Lemma strict_eq_true v w : strict_eq v w = true <-> v = w.
Proof.
  destruct v as [[[]|]|], w as [[[]|]|]; simpl; split; congruence.
Qed.

Lemma strict_eq_refl v : strict_eq v v = true.
Proof. apply strict_eq_true. reflexivity. Qed.

Lemma calculateWinner_from_cons a b c rest squares :
  calculateWinner_from ((a, b, c) :: rest) squares =
  match squares !! a with
  | Some (Some p) =>
      if decide (complete squares (a, b, c) p) then Some (p, (a, b, c))
      else calculateWinner_from rest squares
  | _ => calculateWinner_from rest squares
  end.
Proof.
  simpl. destruct (squares !! a) as [[p|]|] eqn:Ha; try reflexivity.
  destruct (decide _) as [Hc|Hn].
  - destruct Hc as (_ & -> & ->). rewrite !strict_eq_refl. reflexivity.
  - destruct (strict_eq _ (squares !! b)) eqn:E1;
      destruct (strict_eq _ (squares !! c)) eqn:E2; simpl; try reflexivity.
    apply strict_eq_true in E1, E2. exfalso. apply Hn. auto.
Qed.

Lemma calculateWinner_from_None ls squares :
  calculateWinner_from ls squares = None <-> none_complete ls squares.
Proof.
  induction ls as [|[[a b] c] rest IH].
  - split; [|reflexivity]. intros _ l q Hl. inversion Hl.
  - rewrite calculateWinner_from_cons. split.
    + intros H l q Hl. apply elem_of_cons in Hl as [->|Hl].
      * intros Hc. pose proof Hc as (Ha & _). rewrite Ha in H.
        rewrite decide_True in H by assumption. discriminate.
      * destruct (squares !! a) as [[p|]|]; [destruct (decide _); [discriminate|]| |];
          apply IH in H; exact (H l q Hl).
    + intros H.
      assert (none_complete rest squares) as Hr
          by (intros l q Hl; apply H; right; exact Hl).
      apply IH in Hr.
      destruct (squares !! a) as [[p|]|] eqn:Ha; try exact Hr.
      rewrite decide_False; [exact Hr|]. apply H. left.
Qed.

Lemma calculateWinner_from_Some ls squares p l :
  calculateWinner_from ls squares = Some (p, l) <->
  exists pre post, ls = pre ++ l :: post /\ complete squares l p
                   /\ none_complete pre squares.
Proof.
  induction ls as [|[[a b] c] rest IH].
  - split; [discriminate|]. intros (pre & post & H & _). destruct pre; discriminate.
  - rewrite calculateWinner_from_cons. split.
    + intros H.
      assert (calculateWinner_from rest squares = Some (p, l) ->
              (forall q, ~ complete squares (a, b, c) q) ->
              exists pre post, (a, b, c) :: rest = pre ++ l :: post
                /\ complete squares l p /\ none_complete pre squares) as Hrest.
      { intros Hr Hn. apply IH in Hr as (pre & post & -> & Hc & Hp).
        exists ((a, b, c) :: pre), post. split; [reflexivity|]. split; [exact Hc|].
        intros l' q Hl'. apply elem_of_cons in Hl' as [->|Hl']; [apply Hn|apply Hp, Hl']. }
      destruct (squares !! a) as [[p0|]|] eqn:Ha.
      * destruct (decide _) as [Hc|Hn].
        -- injection H as <- <-. exists [], rest. split; [reflexivity|].
           split; [exact Hc|]. intros l' q Hl'. inversion Hl'.
        -- apply Hrest; [exact H|]. intros q Hq. pose proof Hq as (Hq' & _).
           rewrite Ha in Hq'. injection Hq' as <-. exact (Hn Hq).
      * apply Hrest; [exact H|]. intros q (Hq & _). congruence.
      * apply Hrest; [exact H|]. intros q (Hq & _). congruence.
    + intros (pre & post & Heq & Hc & Hp). destruct pre as [|l0 pre].
      * simpl in Heq. injection Heq as <- <-. pose proof Hc as (Ha & _).
        rewrite Ha. rewrite decide_True by exact Hc. reflexivity.
      * simpl in Heq. injection Heq as <- ->.
        assert (calculateWinner_from (pre ++ l :: post) squares = Some (p, l)) as Hr.
        { apply IH. exists pre, post. split; [reflexivity|]. split; [exact Hc|].
          intros l' q Hl'. apply Hp. right. exact Hl'. }
        assert (forall q, ~ complete squares (a, b, c) q) as Hn
            by (intros q; apply Hp; left).
        destruct (squares !! a) as [[p0|]|]; try exact Hr.
        rewrite decide_False by apply Hn. exact Hr.
Qed.

Lemma every_nonnull_true (board : Board) :
  every_nonnull board = true <-> forall i, board !! i <> Some None.
Proof.
  unfold every_nonnull. rewrite forallb_forall. split.
  - intros H i Hi. apply list_elem_of_lookup_2, list_elem_of_In, H in Hi.
    discriminate.
  - intros H cell Hc. destruct cell; [reflexivity|].
    apply list_elem_of_In, list_elem_of_lookup in Hc as [i Hi].
    exfalso. exact (H i Hi).
Qed.

Lemma every_nonnull_false (board : Board) :
  every_nonnull board = false <-> exists i, board !! i = Some None.
Proof.
  split.
  - intros H. destruct (decide (None ∈ board)) as [Hin|Hn].
    + apply list_elem_of_lookup in Hin. exact Hin.
    + assert (every_nonnull board = true) as Ht; [|congruence].
      apply every_nonnull_true. intros i Hi. apply Hn.
      eapply list_elem_of_lookup_2, Hi.
  - intros [i Hi]. destruct (every_nonnull board) eqn:E; [|reflexivity].
    exfalso. exact (proj1 (every_nonnull_true _) E i Hi).
Qed.

(** C4. For every board, also one that no game produces, [evaluate] gives
    [Won marker line] exactly when [line] is the first of the eight lines,
    in the order rows, columns, diagonals, whose three squares hold the same
    marker [marker] (so it gives some [Won] exactly when some line is
    complete); it gives [Draw] exactly when no line is complete and no
    square is empty, and [InProgress] exactly when no line is complete and
    some square is empty. *)
Theorem evaluate_spec (squares : Board) :
  (forall p l, evaluate squares = Won p l <->
     exists pre post, lines = pre ++ l :: post /\ complete squares l p
                      /\ none_complete pre squares)
  /\ ((exists p l, evaluate squares = Won p l) <->
      exists l q, l ∈ lines /\ complete squares l q)
  /\ (evaluate squares = Draw <->
      none_complete lines squares /\ forall i, squares !! i <> Some None)
  /\ (evaluate squares = InProgress <->
      none_complete lines squares /\ exists i, squares !! i = Some None).
Proof.
  unfold evaluate, calculateWinner.
  destruct (calculateWinner_from lines squares) as [[p0 l0]|] eqn:E.
  - pose proof E as E'. apply calculateWinner_from_Some in E' as (pre & post & Hl & Hc & Hp).
    assert (~ none_complete lines squares) as Hnn.
    { intros Hn. apply calculateWinner_from_None in Hn. congruence. }
    split; [|split; [|split]].
    + intros p l. split.
      * intros [= <- <-]. eauto.
      * intros H. apply calculateWinner_from_Some in H. congruence.
    + split; intros _; [|eauto]. exists l0, p0. split; [|exact Hc]. rewrite Hl.
      apply elem_of_app. right. left.
    + split; [discriminate|]. intros [H _]. contradiction.
    + split; [discriminate|]. intros [H _]. contradiction.
  - pose proof E as Hn. apply calculateWinner_from_None in Hn.
    split; [|split].
    + intros p l. split.
      * destruct (every_nonnull squares); discriminate.
      * intros H. apply calculateWinner_from_Some in H. congruence.
    + split.
      * intros (p & l & H). destruct (every_nonnull squares); discriminate.
      * intros (l & q & Hl & Hc). exfalso. exact (Hn l q Hl Hc).
    + destruct (every_nonnull squares) eqn:Ev.
      * pose proof (proj1 (every_nonnull_true _) Ev) as Ev'.
        split; split; try discriminate; auto.
        intros [_ [i Hi]]. exfalso. exact (Ev' i Hi).
      * apply (proj1 (every_nonnull_false _)) in Ev.
        split; split; try discriminate; auto.
        intros [_ H]. destruct Ev as [i Hi]. exfalso. exact (H i Hi).
Qed.

(** ** Winning and blocking squares *)

Lemma lines_distinct : Forall distinct3 lines.
Proof. unfold lines. repeat constructor; simpl; lia. Qed.

Lemma is_null_true v : is_null v = true <-> v = Some None.
Proof. destruct v as [[|]|]; simpl; split; congruence. Qed.

Lemma is_mark_true p v : is_mark p v = true <-> v = Some (Some p).
Proof. destruct v as [[[]|]|], p; simpl; split; congruence. Qed.

Ltac reflect_cells :=
  repeat match goal with
    | H : is_null _ = true |- _ => apply is_null_true in H
    | H : is_mark _ _ = true |- _ => apply is_mark_true in H
    end.

Lemma fills_iff (board : Board) p i a b c :
  distinct3 (a, b, c) ->
  board !! i = Some None ->
  fills board p i (a, b, c) <->
    (i = a /\ board !! b = Some (Some p) /\ board !! c = Some (Some p))
    \/ (i = b /\ board !! a = Some (Some p) /\ board !! c = Some (Some p))
    \/ (i = c /\ board !! a = Some (Some p) /\ board !! b = Some (Some p)).
Proof.
  intros (Hab & Hac & Hbc) Hi. unfold fills. simpl.
  pose proof (lookup_lt_Some _ _ _ Hi) as Hlt.
  split.
  - intros [(Ha & Hb & Hc) Hn].
    destruct (decide (i = a)) as [->|Hia].
    { left. rewrite !list_lookup_insert_ne in Hb, Hc by congruence. auto. }
    destruct (decide (i = b)) as [->|Hib].
    { right; left. rewrite !list_lookup_insert_ne in Ha, Hc by congruence. auto. }
    destruct (decide (i = c)) as [->|Hic].
    { right; right. rewrite !list_lookup_insert_ne in Ha, Hb by congruence. auto. }
    rewrite !list_lookup_insert_ne in Ha, Hb, Hc by congruence. tauto.
  - intros [(-> & Hb & Hc)|[(-> & Ha & Hc)|(-> & Ha & Hb)]].
    + rewrite list_lookup_insert_eq by assumption.
      rewrite !list_lookup_insert_ne by congruence.
      split; [auto|]. intros (Ha & _). congruence.
    + rewrite list_lookup_insert_eq by assumption.
      rewrite !list_lookup_insert_ne by congruence.
      split; [auto|]. intros (_ & Hb & _). congruence.
    + rewrite list_lookup_insert_eq by assumption.
      rewrite !list_lookup_insert_ne by congruence.
      split; [auto|]. intros (_ & _ & Hc'). congruence.
Qed.

(** What [findWinningMove] returns, over any table of lines with distinct
    indices: [-1] when [player] has no winning move on a line of the table,
    else the empty square of the first line that has one. *)
Lemma findWinningMove_from_spec ls (board : Board) player :
  Forall distinct3 ls ->
  (findWinningMove_from ls board player = -1
   /\ forall i, board !! i = Some None -> ~ Exists (fills board player i) ls)
  \/ (exists i, findWinningMove_from ls board player = Z.of_nat i
        /\ board !! i = Some None /\ Exists (fills board player i) ls).
Proof.
  induction ls as [|[[a b] c] rest IH]; intros Hd.
  - left. split; [reflexivity|]. intros i _ H. inversion H.
  - apply Forall_cons in Hd as [Hd Hrest]. specialize (IH Hrest). simpl.
    destruct (_ || _) eqn:Htest.
    + right.
      apply orb_true_iff in Htest as [Htest|Htest];
        [apply orb_true_iff in Htest as [Htest|Htest]|];
        apply andb_true_iff in Htest as [Htest H3];
        apply andb_true_iff in Htest as [H1 H2];
        reflect_cells.
      * exists c. unfold is_null. rewrite H1, H2. simpl.
        split; [reflexivity|]. split; [first [assumption|reflexivity]|].
        left. apply fills_iff; auto.
      * exists b. unfold is_null. rewrite H1, H2. simpl.
        split; [reflexivity|]. split; [first [assumption|reflexivity]|].
        left. apply fills_iff; auto.
      * exists a. unfold is_null. rewrite H1. simpl.
        split; [reflexivity|]. split; [first [assumption|reflexivity]|].
        left. apply fills_iff; auto.
    + destruct IH as [[Hr Hn]|(i & Hr & Hi & Hex)].
      * left. split; [exact Hr|]. intros i Hi Hex.
        apply Exists_cons in Hex as [Hf|Hex]; [|exact (Hn i Hi Hex)].
        apply fills_iff in Hf; [|assumption..].
        assert ((is_mark player (board !! a) && is_mark player (board !! b)
                   && is_null (board !! c))
                || (is_mark player (board !! a) && is_null (board !! b)
                      && is_mark player (board !! c))
                || (is_null (board !! a) && is_mark player (board !! b)
                      && is_mark player (board !! c)) = true) as Ht;
          [|congruence].
        destruct Hf as [(-> & Hb & Hc)|[(-> & Ha & Hc)|(-> & Ha & Hb)]].
        -- apply orb_true_iff. right.
           rewrite !andb_true_iff, !is_mark_true, is_null_true. auto.
        -- apply orb_true_iff. left. apply orb_true_iff. right.
           rewrite !andb_true_iff, !is_mark_true, is_null_true. auto.
        -- apply orb_true_iff. left. apply orb_true_iff. left.
           rewrite !andb_true_iff, !is_mark_true, is_null_true. auto.
      * right. exists i. split; [exact Hr|]. split; [exact Hi|].
        right. exact Hex.
Qed.

Lemma findWinningMove_none (board : Board) player :
  findWinningMove board player = -1 <->
  forall i, ~ winningMove board player i.
Proof.
  unfold findWinningMove, winningMove.
  destruct (findWinningMove_from_spec lines board player lines_distinct)
    as [[Hr Hn]|(i & Hr & Hi & Hex)].
  - split; [|intros _; exact Hr]. intros _ i [Hi Hex]. exact (Hn i Hi Hex).
  - split.
    + rewrite Hr. lia.
    + intros H. exfalso. apply (H i). auto.
Qed.

Lemma findWinningMove_some (board : Board) player :
  findWinningMove board player <> -1 ->
  exists i, findWinningMove board player = Z.of_nat i
            /\ winningMove board player i.
Proof.
  unfold findWinningMove, winningMove.
  destruct (findWinningMove_from_spec lines board player lines_distinct)
    as [[Hr Hn]|(i & Hr & Hi & Hex)].
  - congruence.
  - intros _. exists i. auto.
Qed.

(** ** Doubles and random draws: the index is in range, and how it is
       spread *)

(** *** The rounding of [SpecFloat] on the integers

    [binary_normalize] shifts the significand right bit by bit and keeps a
    round bit and a sticky bit; the lemmas below bring it to a division by a
    power of two and a comparison of the remainder with its half. *)

Lemma pow2_pos k : 0 <= k -> 0 < 2 ^ k.
Proof. intros. apply Z.pow_pos_nonneg; lia. Qed.

Lemma digits2_pos_size (p : positive) : digits2_pos p = Pos.size p.
Proof. induction p as [p IH|p IH|]; simpl; congruence. Qed.

Lemma digits2_log2 (p : positive) : Zpos (digits2_pos p) = Z.log2 (Zpos p) + 1.
Proof.
  rewrite digits2_pos_size.
  destruct p as [p|p|]; [| |reflexivity]; unfold Z.log2; cbn [Pos.size]; lia.
Qed.

Lemma iter_pos_nat {A} (f : A -> A) (p : positive) (x : A) :
  SpecFloat.iter_pos f p x = Nat.iter (Pos.to_nat p) f x.
Proof.
  revert x. induction p as [p IH|p IH|]; intros x; cbn [SpecFloat.iter_pos].
  - rewrite !IH. rewrite Pos2Nat.inj_xI.
    replace (S (2 * Pos.to_nat p))%nat with (Pos.to_nat p + S (Pos.to_nat p))%nat by lia.
    rewrite Nat.iter_add. f_equal. rewrite Nat.iter_succ_r. reflexivity.
  - rewrite !IH. rewrite Pos2Nat.inj_xO.
    replace (2 * Pos.to_nat p)%nat with (Pos.to_nat p + Pos.to_nat p)%nat by lia.
    rewrite Nat.iter_add. reflexivity.
  - reflexivity.
Qed.

Lemma shr_1_spec (m : Z) (r s : bool) :
  0 <= m ->
  shr_1 (Build_shr_record m r s) = Build_shr_record (m / 2) (Z.odd m) (r || s).
Proof.
  intros Hm. rewrite <- Z.div2_div.
  destruct m as [|[p|p|]|p]; try reflexivity. lia.
Qed.

Lemma mod_pow2_succ (M j : Z) :
  0 <= j ->
  M mod 2 ^ (j + 1) = M mod 2 ^ j + 2 ^ j * ((M / 2 ^ j) mod 2).
Proof.
  intros Hj. rewrite Z.pow_add_r, Z.pow_1_r by lia.
  apply Z.rem_mul_r; [pose proof (pow2_pos j Hj); lia|lia].
Qed.

(** After [j + 1] shifts: the quotient, the last bit shifted out, and
    whether any bit before it was set. *)
Lemma shr_iter (M : Z) (j : nat) :
  0 <= M ->
  Nat.iter (S j) shr_1 (Build_shr_record M false false)
  = Build_shr_record (M / 2 ^ (Z.of_nat j + 1))
      (Z.odd (M / 2 ^ Z.of_nat j))
      (negb (M mod 2 ^ Z.of_nat j =? 0)).
Proof.
  intros HM. induction j as [|j IH].
  - change (Nat.iter 1 shr_1 ?x) with (shr_1 x). rewrite shr_1_spec by exact HM.
    change (2 ^ (Z.of_nat 0 + 1)) with 2. change (2 ^ Z.of_nat 0) with 1.
    rewrite Z.div_1_r, Z.mod_1_r. reflexivity.
  - change (Nat.iter (S (S j)) shr_1 ?x) with (shr_1 (Nat.iter (S j) shr_1 x)).
    rewrite IH. rewrite shr_1_spec by (apply Z.div_pos; [lia|apply pow2_pos; lia]).
    pose proof (pow2_pos (Z.of_nat j) ltac:(lia)) as Hp.
    replace (Z.of_nat (S j)) with (Z.of_nat j + 1) by lia.
    f_equal.
    + rewrite Z.div_div by lia.
      rewrite <- (Z.pow_1_r 2) at 2. rewrite <- Z.pow_add_r by lia. reflexivity.
    + rewrite mod_pow2_succ by lia.
      pose proof (Z.mod_pos_bound M (2 ^ Z.of_nat j) Hp).
      pose proof (Z.mod_pos_bound (M / 2 ^ Z.of_nat j) 2 ltac:(lia)).
      rewrite (Zmod_odd (M / 2 ^ Z.of_nat j)) in *.
      destruct (Z.odd (M / 2 ^ Z.of_nat j)); simpl.
      * symmetry. apply negb_true_iff, Z.eqb_neq. lia.
      * f_equal. f_equal. lia.
Qed.

Lemma shr_spec (M e n : Z) :
  0 <= M ->
  shr (Build_shr_record M false false) e n
  = if 0 <? n
    then (Build_shr_record (M / 2 ^ n) (Z.odd (M / 2 ^ (n - 1)))
            (negb (M mod 2 ^ (n - 1) =? 0)), e + n)
    else (Build_shr_record M false false, e).
Proof.
  intros HM. destruct n as [|n|n]; try reflexivity.
  change (0 <? Z.pos n) with true. cbv iota. unfold shr.
  rewrite iter_pos_nat.
  destruct (Pos2Nat.is_succ n) as [j Hj]. rewrite Hj.
  rewrite shr_iter by exact HM.
  replace (Z.pos n) with (Z.of_nat j + 1) by lia.
  replace (Z.of_nat j + 1 - 1) with (Z.of_nat j) by lia. reflexivity.
Qed.

Lemma Zdigits2_log2 (z : Z) : 0 < z -> Zdigits2 z = Z.log2 z + 1.
Proof.
  destruct z as [|p|p]; try lia. intros _. apply digits2_log2.
Qed.

Lemma fexp_double (e : Z) : fexp 53 1024 e = Z.max (e - 53) (-1074).
Proof. reflexivity. Qed.

Lemma floor_scaled (q s k : Z) :
  0 <= s -> 0 <= k ->
  (if 0 <=? s - k then q * 2 ^ (s - k) else q / 2 ^ (- (s - k)))
  = q * 2 ^ s / 2 ^ k.
Proof.
  intros Hs Hk. pose proof (pow2_pos k Hk). pose proof (pow2_pos s Hs).
  destruct (Z.leb_spec 0 (s - k)).
  - replace s with ((s - k) + k) at 2 by lia.
    rewrite Z.pow_add_r by lia. rewrite Z.mul_assoc, Z.div_mul by lia.
    reflexivity.
  - replace k with ((k - s) + s) at 2 by lia.
    rewrite Z.pow_add_r by lia.
    rewrite Z.div_mul_cancel_r by (try apply Z.pow_nonzero; lia).
    f_equal. f_equal. lia.
Qed.

(** No shift when the significand fits. *)
Lemma shr_fexp_fits (M e : Z) :
  0 < M -> Z.log2 M + 1 <= 53 -> -1074 <= e ->
  shr_fexp 53 1024 M e loc_Exact = (Build_shr_record M false false, e).
Proof.
  intros HM Hd He. unfold shr_fexp. rewrite Zdigits2_log2 by exact HM.
  rewrite fexp_double. cbn [shr_record_of_loc]. rewrite shr_spec by lia.
  destruct (Z.ltb_spec 0 (Z.max (Z.log2 M + 1 + e - 53) (-1074) - e));
    [lia|reflexivity].
Qed.

Lemma shr_fexp_wide (M e : Z) :
  0 < M -> 53 < Z.log2 M + 1 -> -1074 <= e ->
  let s := Z.log2 M + 1 - 53 in
  shr_fexp 53 1024 M e loc_Exact
  = (Build_shr_record (M / 2 ^ s) (Z.odd (M / 2 ^ (s - 1)))
       (negb (M mod 2 ^ (s - 1) =? 0)), e + s).
Proof.
  intros HM Hd He s. unfold shr_fexp. rewrite Zdigits2_log2 by exact HM.
  rewrite fexp_double. cbn [shr_record_of_loc]. rewrite shr_spec by lia.
  replace (Z.max (Z.log2 M + 1 + e - 53) (-1074) - e) with s by (unfold s; lia).
  destruct (Z.ltb_spec 0 s); [reflexivity|unfold s in *; lia].
Qed.

(** Round to nearest, ties to even, on the remainder. *)
Lemma round_decision (M s : Z) :
  0 <= M -> 0 < s ->
  round_nearest_even (M / 2 ^ s)
    (loc_of_shr_record
       (Build_shr_record (M / 2 ^ s) (Z.odd (M / 2 ^ (s - 1)))
          (negb (M mod 2 ^ (s - 1) =? 0))))
  = if (2 ^ (s - 1) <? M mod 2 ^ s)
       || ((M mod 2 ^ s =? 2 ^ (s - 1)) && Z.odd (M / 2 ^ s))
    then M / 2 ^ s + 1 else M / 2 ^ s.
Proof.
  intros HM Hs.
  pose proof (mod_pow2_succ M (s - 1) ltac:(lia)) as Hsplit.
  replace (s - 1 + 1) with s in Hsplit by lia.
  pose proof (pow2_pos (s - 1) ltac:(lia)) as Hhalf.
  pose proof (Z.mod_pos_bound M (2 ^ (s - 1)) Hhalf) as Hlo.
  rewrite Zmod_odd in Hsplit.
  set (half := 2 ^ (s - 1)) in *. set (lo := M mod half) in *.
  set (rest := M mod 2 ^ s) in *. set (q0 := M / 2 ^ s).
  destruct (Z.odd (M / half)); destruct (Z.eqb_spec lo 0) as [Hz|Hz];
    cbn [negb loc_of_shr_record round_nearest_even].
  - (* a tie *)
    destruct (Z.ltb_spec half rest); [lia|].
    destruct (Z.eqb_spec rest half); [|lia].
    rewrite <- Z.negb_odd. destruct (Z.odd q0); reflexivity.
  - destruct (Z.ltb_spec half rest); [reflexivity|lia].
  - destruct (Z.ltb_spec half rest); [lia|].
    destruct (Z.eqb_spec rest half); [lia|reflexivity].
  - destruct (Z.ltb_spec half rest); [lia|].
    destruct (Z.eqb_spec rest half); [lia|reflexivity].
Qed.

Lemma round53_fits (M : Z) :
  Z.log2 M + 1 <= 53 -> round53 M = (M, 0).
Proof.
  intros H. unfold round53. destruct (Z.leb_spec (Z.log2 M + 1) 53); [reflexivity|lia].
Qed.

Lemma round53_wide (M : Z) :
  53 < Z.log2 M + 1 ->
  let s := Z.log2 M + 1 - 53 in
  round53 M
  = (if (2 ^ (s - 1) <? M mod 2 ^ s)
        || ((M mod 2 ^ s =? 2 ^ (s - 1)) && Z.odd (M / 2 ^ s))
     then M / 2 ^ s + 1 else M / 2 ^ s, s).
Proof.
  intros H s. unfold round53. destruct (Z.leb_spec (Z.log2 M + 1) 53); [lia|].
  fold s. destruct (_ || _); reflexivity.
Qed.

Lemma finite_floor (q e s k : Z) :
  0 < q -> 0 <= s -> 0 <= k -> e = s - k ->
  double_floor
    match q with
    | Z0 => S754_zero false
    | Zpos m => if e <=? 1024 - 53 then S754_finite false m e
                else S754_infinity false
    | Zneg _ => S754_nan
    end
  = if 971 <? e then 0 else q * 2 ^ s / 2 ^ k.
Proof.
  intros Hq Hs Hk ->. destruct q as [|m|m]; try lia.
  change (1024 - 53) with 971.
  destruct (Z.leb_spec (s - k) 971), (Z.ltb_spec 971 (s - k)); try lia.
  - cbn [double_floor]. apply floor_scaled; lia.
  - reflexivity.
Qed.

Lemma binary_round_aux_floor (M k : Z) :
  0 < M -> 0 <= k <= 1074 ->
  double_floor (binary_round_aux 53 1024 false M (- k) loc_Exact)
  = let '(q, s) := round53 M in
    if 971 <? s - k + (if q =? 2 ^ 53 then 1 else 0) then 0
    else q * 2 ^ s / 2 ^ k.
Proof.
  intros HM Hk. unfold binary_round_aux.
  pose proof (Z.log2_spec M HM) as Hlog.
  destruct (Z_le_gt_dec (Z.log2 M + 1) 53) as [Hfit|Hwide].
  - rewrite round53_fits by exact Hfit.
    rewrite shr_fexp_fits by lia.
    cbn [shr_m loc_of_shr_record round_nearest_even].
    rewrite shr_fexp_fits by lia. cbn [shr_m].
    assert (M < 2 ^ 53) as Hlt.
    { eapply Z.lt_le_trans; [apply Hlog|]. apply Z.pow_le_mono_r; lia. }
    destruct (Z.eqb_spec M (2 ^ 53)); [lia|].
    rewrite (finite_floor M (- k) 0 k) by lia.
    replace (0 - k + 0) with (- k) by lia. reflexivity.
  - rewrite round53_wide by lia. rewrite shr_fexp_wide by lia.
    set (s := Z.log2 M + 1 - 53) in *. cbn [shr_m].
    rewrite round_decision by lia.
    set (q := if (2 ^ (s - 1) <? M mod 2 ^ s)
                 || ((M mod 2 ^ s =? 2 ^ (s - 1)) && Z.odd (M / 2 ^ s))
              then M / 2 ^ s + 1 else M / 2 ^ s).
    pose proof (pow2_pos s ltac:(lia)) as Hs2.
    assert (2 ^ 52 <= M / 2 ^ s < 2 ^ 53) as Hq0.
    { replace (Z.log2 M) with (s + 52) in Hlog by (unfold s; lia).
      replace (Z.succ (s + 52)) with (s + 53) in Hlog by lia.
      rewrite !Z.pow_add_r in Hlog by lia. split.
      - apply Z.div_le_lower_bound; lia.
      - apply Z.div_lt_upper_bound; lia. }
    assert (2 ^ 52 <= q <= 2 ^ 53) as Hq.
    { unfold q. destruct (_ || _); lia. }
    clearbody q.
    destruct (Z.eqb_spec q (2 ^ 53)) as [->|Hne].
    + (* the significand carried into a 54th bit *)
      rewrite shr_fexp_wide by (change (Z.log2 (2 ^ 53)) with 53; lia).
      change (Z.log2 (2 ^ 53) + 1 - 53) with 1. cbn [shr_m].
      change (2 ^ 53 / 2 ^ 1) with (2 ^ 52).
      rewrite (finite_floor (2 ^ 52) (- k + s + 1) (s + 1) k) by lia.
      replace (- k + s + 1) with (s - k + 1) by lia.
      destruct (971 <? s - k + 1); [reflexivity|].
      f_equal. rewrite (Z.pow_add_r 2 s 1) by lia.
      change (2 ^ 53) with (2 ^ 52 * 2 ^ 1). ring.
    + assert (Z.log2 q = 52) as Hlq.
      { apply Z.log2_unique; [lia|]. change (Z.succ 52) with 53. lia. }
      rewrite shr_fexp_fits by lia. cbn [shr_m].
      rewrite (finite_floor q (- k + s) s k) by lia.
      replace (- k + s) with (s - k + 0) by lia. reflexivity.
Qed.

Lemma iter_xO_pow (p t : positive) :
  Zpos (Pos.iter xO p t) = Zpos p * 2 ^ Zpos t.
Proof.
  change (Pos.iter xO p t) with (shift_pos t p).
  rewrite shift_pos_correct. change (Z.pow_pos 2 t) with (2 ^ Zpos t). ring.
Qed.

(** [Math.floor] of the double nearest to [M * 2^-k], by integer
    arithmetic; the first case is the overflow to infinity. *)
Lemma double_floor_of (M k : Z) :
  0 <= M -> 0 <= k <= 1074 ->
  double_floor (double_of M (- k))
  = let '(q, s) := round53 M in
    if 971 <? s - k + (if q =? 2 ^ 53 then 1 else 0) then 0
    else q * 2 ^ s / 2 ^ k.
Proof.
  intros HM Hk. destruct M as [|p|p]; [| |lia].
  { pose proof (pow2_pos k ltac:(lia)).
    cbn [double_of binary_normalize double_floor].
    rewrite round53_fits by (simpl; lia).
    change (0 =? 2 ^ 53) with false. cbv iota.
    destruct (Z.ltb_spec 971 (0 - k + 0)); [lia|]. reflexivity. }
  unfold double_of, binary_normalize, binary_round, shl_align.
  rewrite digits2_log2, fexp_double.
  pose proof (Z.log2_nonneg (Zpos p)) as Hlog.
  destruct (Z.max (Z.log2 (Z.pos p) + 1 + - k - 53) (-1074) - - k)
    as [|t|t] eqn:Ht.
  - apply binary_round_aux_floor; lia.
  - apply binary_round_aux_floor; lia.
  - rewrite iter_xO_pow.
    replace (Z.max (Z.log2 (Z.pos p) + 1 + - k - 53) (-1074))
      with (- (k + Zpos t)) by lia.
    rewrite binary_round_aux_floor by (try apply Z.mul_pos_pos; try apply pow2_pos; lia).
    assert (Z.log2 (Zpos p * 2 ^ Zpos t) = Zpos t + Z.log2 (Zpos p)) as Hl
      by (apply Z.log2_mul_pow2; lia).
    rewrite round53_fits by lia. rewrite round53_fits by lia.
    pose proof (pow2_pos (Zpos t) ltac:(lia)) as Ht2.
    assert (Zpos p * 2 ^ Zpos t < 2 ^ 53) as Hlt.
    { pose proof (Z.log2_spec (Zpos p * 2 ^ Zpos t) ltac:(lia)) as [_ Hup].
      eapply Z.lt_le_trans; [apply Hup|]. apply Z.pow_le_mono_r; lia. }
    assert (Zpos p < 2 ^ 53) as Hlt' by nia.
    destruct (Z.eqb_spec (Zpos p * 2 ^ Zpos t) (2 ^ 53)); [lia|].
    destruct (Z.eqb_spec (Zpos p) (2 ^ 53)); [lia|].
    destruct (Z.ltb_spec 971 (0 - (k + Zpos t) + 0)); [lia|].
    destruct (Z.ltb_spec 971 (0 - k + 0)); [lia|].
    rewrite !Z.pow_0_r, !Z.mul_1_r.
    rewrite Z.pow_add_r by lia.
    apply Z.div_mul_cancel_r; apply Z.pow_nonzero; lia.
Qed.

(** Without overflow the result is a finite double, zero or positive. *)
Lemma finite_class (q e : Z) :
  0 < q -> e <= 971 ->
  nonneg_finite
    match q with
    | Z0 => S754_zero false
    | Zpos m => if e <=? 1024 - 53 then S754_finite false m e
                else S754_infinity false
    | Zneg _ => S754_nan
    end = true.
Proof.
  intros Hq He. destruct q as [|m|m]; try lia.
  change (1024 - 53) with 971.
  destruct (Z.leb_spec e 971); [reflexivity|lia].
Qed.

Lemma binary_round_aux_finite (M k : Z) :
  0 < M -> 0 <= k <= 1074 -> Z.log2 M + 1 - 53 <= k ->
  nonneg_finite (binary_round_aux 53 1024 false M (- k) loc_Exact) = true.
Proof.
  intros HM Hk Hs. unfold binary_round_aux.
  pose proof (Z.log2_spec M HM) as Hlog.
  destruct (Z_le_gt_dec (Z.log2 M + 1) 53) as [Hfit|Hwide].
  - rewrite shr_fexp_fits by lia.
    cbn [shr_m loc_of_shr_record round_nearest_even].
    rewrite shr_fexp_fits by lia. cbn [shr_m].
    apply finite_class; lia.
  - rewrite shr_fexp_wide by lia.
    set (s := Z.log2 M + 1 - 53) in *. cbn [shr_m].
    rewrite round_decision by lia.
    set (q := if (2 ^ (s - 1) <? M mod 2 ^ s)
                 || ((M mod 2 ^ s =? 2 ^ (s - 1)) && Z.odd (M / 2 ^ s))
              then M / 2 ^ s + 1 else M / 2 ^ s).
    pose proof (pow2_pos s ltac:(lia)) as Hs2.
    assert (2 ^ 52 <= M / 2 ^ s < 2 ^ 53) as Hq0.
    { replace (Z.log2 M) with (s + 52) in Hlog by (unfold s; lia).
      replace (Z.succ (s + 52)) with (s + 53) in Hlog by lia.
      rewrite !Z.pow_add_r in Hlog by lia. split.
      - apply Z.div_le_lower_bound; lia.
      - apply Z.div_lt_upper_bound; lia. }
    assert (2 ^ 52 <= q <= 2 ^ 53) as Hq.
    { unfold q. destruct (_ || _); lia. }
    clearbody q.
    destruct (Z.eq_dec q (2 ^ 53)) as [->|Hne].
    + rewrite shr_fexp_wide by (change (Z.log2 (2 ^ 53)) with 53; lia).
      change (Z.log2 (2 ^ 53) + 1 - 53) with 1. cbn [shr_m].
      change (2 ^ 53 / 2 ^ 1) with (2 ^ 52).
      apply finite_class; lia.
    + assert (Z.log2 q = 52) as Hlq.
      { apply Z.log2_unique; [lia|]. change (Z.succ 52) with 53. lia. }
      rewrite shr_fexp_fits by lia. cbn [shr_m].
      apply finite_class; lia.
Qed.

Lemma double_of_finite (M k : Z) :
  0 <= M -> 0 <= k <= 1074 -> Z.log2 M + 1 - 53 <= k ->
  nonneg_finite (double_of M (- k)) = true.
Proof.
  intros HM Hk Hs. destruct M as [|p|p]; [reflexivity| |lia].
  unfold double_of, binary_normalize, binary_round, shl_align.
  rewrite digits2_log2, fexp_double.
  pose proof (Z.log2_nonneg (Zpos p)) as Hlog.
  destruct (Z.max (Z.log2 (Z.pos p) + 1 + - k - 53) (-1074) - - k)
    as [|t|t] eqn:Ht.
  - apply binary_round_aux_finite; lia.
  - apply binary_round_aux_finite; lia.
  - rewrite iter_xO_pow.
    replace (Z.max (Z.log2 (Z.pos p) + 1 + - k - 53) (-1074))
      with (- (k + Zpos t)) by lia.
    assert (Z.log2 (Zpos p * 2 ^ Zpos t) = Zpos t + Z.log2 (Zpos p)) as Hl
      by (apply Z.log2_mul_pow2; lia).
    apply binary_round_aux_finite;
      [apply Z.mul_pos_pos; [lia|apply pow2_pos; lia]|lia|lia].
Qed.

(** *** Draws *)

Lemma draw_range (r : draw) :
  0 <= draw_num r < 2 ^ 53 /\ draw_num r < 2 ^ draw_exp r
  /\ 0 <= draw_exp r <= 1074.
Proof.
  pose proof (draw_ok r) as H. unfold is_unit_double in H.
  repeat (apply andb_prop in H as [H ?]).
  apply Z.leb_le in H. apply Z.ltb_lt in H3, H2. apply Z.leb_le in H1, H0.
  lia.
Qed.

Lemma round53_spec (M : Z) :
  0 <= M ->
  let '(q, s) := round53 M in
  0 <= s
  /\ (s = 0 -> q = M)
  /\ (0 < s -> 2 ^ (s + 52) <= M)
  /\ (q = M / 2 ^ s \/ (q = M / 2 ^ s + 1 /\ 2 ^ s <= 2 * (M mod 2 ^ s))).
Proof.
  intros HM. unfold round53.
  destruct (Z.leb_spec (Z.log2 M + 1) 53) as [Hb|Hb].
  - split; [lia|]. split; [reflexivity|]. split; [lia|].
    left. rewrite Z.pow_0_r, Z.div_1_r. reflexivity.
  - set (s := Z.log2 M + 1 - 53).
    assert (0 < s) as Hs by (unfold s; lia).
    assert (0 < M) as HM0.
    { destruct (Z.eq_dec M 0) as [->|]; [simpl in Hb; lia|lia]. }
    pose proof (Z.log2_spec M HM0) as [Hlo _].
    assert (2 ^ (s + 52) <= M) as Hlow.
    { replace (s + 52) with (Z.log2 M) by (unfold s; lia). exact Hlo. }
    assert (2 ^ s = 2 * 2 ^ (s - 1)) as Hpow.
    { rewrite <- Z.pow_succ_r by lia. f_equal. lia. }
    destruct ((2 ^ (s - 1) <? M mod 2 ^ s)
              || ((M mod 2 ^ s =? 2 ^ (s - 1)) && Z.odd (M / 2 ^ s))) eqn:E.
    + split; [lia|]. split; [lia|]. split; [intros _; exact Hlow|].
      right. split; [reflexivity|].
      apply Bool.orb_true_iff in E as [E|E].
      * apply Z.ltb_lt in E. lia.
      * apply Bool.andb_true_iff in E as [E _]. apply Z.eqb_eq in E. lia.
    + split; [lia|]. split; [lia|]. split; [intros _; exact Hlow|].
      left. reflexivity.
Qed.

(** [Math.floor(r * n)] by integer arithmetic. *)
Lemma floor_mul_round53 (r : draw) (n : nat) :
  floor_mul r n
  = let '(q, s) := round53 (draw_num r * Z.of_nat n) in
    Z.to_nat (if 971 <? s - draw_exp r + (if q =? 2 ^ 53 then 1 else 0)
              then 0 else q * 2 ^ s / 2 ^ draw_exp r).
Proof.
  unfold floor_mul. pose proof (draw_range r) as (Hm & _ & Hk).
  rewrite double_floor_of by (try apply Z.mul_nonneg_nonneg; lia).
  destruct (round53 _) as [q s]. reflexivity.
Qed.

Lemma floor_mul_lt (r : draw) (n : nat) :
  (0 < n)%nat -> (floor_mul r n < n)%nat.
Proof.
  intros Hn. rewrite floor_mul_round53.
  pose proof (draw_range r) as (Hm & Hm1 & Hk).
  set (m := draw_num r) in *. set (k := draw_exp r) in *.
  set (N := Z.of_nat n). assert (0 < N) as HN by (unfold N; lia).
  pose proof (round53_spec (m * N) ltac:(nia)) as Hspec.
  destruct (round53 (m * N)) as [q s].
  destruct (971 <? _); [simpl; lia|].
  destruct Hspec as (Hs0 & Hexact & Hlow & Hq).
  assert (0 < 2 ^ k) as Hk2 by (apply Z.pow_pos_nonneg; lia).
  assert (0 < 2 ^ s) as Hs2 by (apply Z.pow_pos_nonneg; lia).
  assert (q * 2 ^ s < N * 2 ^ k) as Hlt.
  { pose proof (Z.div_mod (m * N) (2 ^ s) ltac:(lia)) as Hdm.
    pose proof (Z.mod_pos_bound (m * N) (2 ^ s) Hs2) as Hmod.
    destruct Hq as [->|[-> Hup]].
    - assert (m * N / 2 ^ s * 2 ^ s <= m * N) by lia. nia.
    - destruct (Z.eq_dec s 0) as [->|Hsne].
      { rewrite Z.pow_0_r in *. lia. }
      specialize (Hlow ltac:(lia)).
      assert (2 ^ (s + 52) = 2 ^ (s - 1) * 2 ^ 53) as Hp.
      { rewrite <- Z.pow_add_r by lia. f_equal. lia. }
      assert (2 ^ s = 2 * 2 ^ (s - 1)) as Hpow.
      { rewrite <- Z.pow_succ_r by lia. f_equal. lia. }
      assert (0 < 2 ^ (s - 1)) by (apply Z.pow_pos_nonneg; lia).
      assert (2 ^ (s - 1) < N) by nia.
      nia. }
  assert (0 <= q * 2 ^ s) as Hge.
  { destruct Hq as [->|[-> _]];
      pose proof (Z.div_pos (m * N) (2 ^ s) ltac:(nia) Hs2); nia. }
  pose proof (Z.div_lt_upper_bound (q * 2 ^ s) (2 ^ k) N Hk2 ltac:(nia)).
  pose proof (Z.div_pos (q * 2 ^ s) (2 ^ k) Hge Hk2).
  unfold N in *. lia.
Qed.

(** The product of a draw and a count below [2^53] is a finite double, zero
    or positive. *)
Lemma product_finite (r : draw) (n : nat) :
  Z.of_nat n < 2 ^ 53 ->
  nonneg_finite (double_of (draw_num r * Z.of_nat n) (- draw_exp r)) = true.
Proof.
  intros HN. pose proof (draw_range r) as (Hm & Hm1 & Hk).
  set (m := draw_num r) in *. set (k := draw_exp r) in *.
  set (N := Z.of_nat n) in *. assert (0 <= N) as HN0 by (unfold N; lia).
  apply double_of_finite; [nia|lia|].
  destruct (Z.eq_dec (m * N) 0) as [->|Hne]; [simpl; lia|].
  assert (0 < m * N) as Hpos by nia.
  pose proof (pow2_pos k ltac:(lia)) as Hk2.
  assert (Z.log2 (m * N) < k + 53); [|lia].
  apply Z.log2_lt_pow2; [exact Hpos|].
  rewrite Z.pow_add_r by lia. nia.
Qed.

Lemma draw_den (r : draw) : Zpos (Z.to_pos (2 ^ draw_exp r)) = 2 ^ draw_exp r.
Proof.
  apply Z2Pos.id, pow2_pos. pose proof (draw_range r). lia.
Qed.

Lemma draw_ge0 (r : draw) : (0 <= draw_val r)%Q.
Proof.
  unfold Qle, draw_val. simpl. pose proof (draw_range r). lia.
Qed.

Lemma draw_lt1 (r : draw) : (draw_val r < 1)%Q.
Proof.
  unfold Qlt, draw_val. simpl. rewrite draw_den.
  pose proof (draw_range r). lia.
Qed.

(** Comparisons of the exact product with an integer, on the numerators. *)
Lemma Qle_draw (r : draw) (a N : Z) :
  (inject_Z a <= draw_val r * inject_Z N)%Q <->
  a * 2 ^ draw_exp r <= draw_num r * N.
Proof.
  unfold Qle, draw_val, Qmult, inject_Z. simpl.
  rewrite Pos.mul_1_r, draw_den. rewrite Z.mul_1_r. reflexivity.
Qed.

Lemma Qlt_draw (r : draw) (a N : Z) :
  (draw_val r * inject_Z N < inject_Z a)%Q <->
  draw_num r * N < a * 2 ^ draw_exp r.
Proof.
  unfold Qlt, draw_val, Qmult, inject_Z. simpl.
  rewrite Pos.mul_1_r, draw_den. rewrite Z.mul_1_r. reflexivity.
Qed.





(** A product with 4 is exact. *)
Lemma round53_times4 (m : Z) :
  0 <= m < 2 ^ 53 ->
  exists s, round53 (m * 4) = (m * 4 / 2 ^ s, s) /\ 0 <= s <= 2
            /\ (m * 4 / 2 ^ s) * 2 ^ s = m * 4
            /\ m * 4 / 2 ^ s < 2 ^ 53.
Proof.
  intros Hm. destruct (Z_le_gt_dec (Z.log2 (m * 4) + 1) 53) as [Hfit|Hwide].
  - exists 0. rewrite round53_fits by exact Hfit.
    rewrite Z.pow_0_r, Z.div_1_r, Z.mul_1_r.
    split; [reflexivity|]. split; [lia|]. split; [reflexivity|].
    destruct (Z.eq_dec m 0) as [->|]; [reflexivity|].
    pose proof (Z.log2_spec (m * 4) ltac:(lia)) as [_ Hup].
    eapply Z.lt_le_trans; [apply Hup|]. apply Z.pow_le_mono_r; lia.
  - assert (0 < m * 4) as Hpos.
    { destruct (Z.eq_dec m 0) as [->|]; [simpl in Hwide; lia|lia]. }
    assert (Z.log2 (m * 4) < 55) as Hlog.
    { apply Z.log2_lt_pow2; [lia|]. change (2 ^ 55) with (2 ^ 53 * 4). lia. }
    exists (Z.log2 (m * 4) + 1 - 53). rewrite round53_wide by lia.
    pose proof (Z.log2_spec (m * 4) Hpos) as [_ Hup].
    replace (Z.succ (Z.log2 (m * 4)))
      with (Z.log2 (m * 4) + 1 - 53 + 53) in Hup by lia.
    assert (Z.log2 (m * 4) + 1 - 53 = 1 \/ Z.log2 (m * 4) + 1 - 53 = 2)
      as [Hs|Hs] by lia; rewrite Hs in *.
    + change (2 ^ 1) with 2. change (2 ^ (1 - 1)) with 1.
      change (2 ^ (1 + 53)) with (2 ^ 53 * 2) in Hup.
      replace (m * 4) with (m * 2 * 2) by ring.
      rewrite Z.mod_mul, Z.div_mul by lia. cbn [Z.ltb Z.eqb Z.compare orb andb].
      split; [reflexivity|]. split; [lia|]. split; [reflexivity|]. lia.
    + change (2 ^ 2) with 4. change (2 ^ (2 - 1)) with 2.
      rewrite Z.mod_mul, Z.div_mul by lia. cbn [Z.ltb Z.eqb Z.compare orb andb].
      split; [reflexivity|]. split; [lia|]. split; [reflexivity|]. lia.
Qed.

Lemma floor_mul_4 (r : draw) :
  floor_mul r 4 = Z.to_nat (draw_num r * 4 / 2 ^ draw_exp r).
Proof.
  rewrite floor_mul_round53. pose proof (draw_range r) as (Hm & Hm1 & Hk).
  change (Z.of_nat 4) with 4.
  destruct (round53_times4 (draw_num r) Hm) as (s & -> & Hs & Hex & Hlt).
  destruct (Z.eqb_spec (draw_num r * 4 / 2 ^ s) (2 ^ 53)); [lia|].
  destruct (Z.ltb_spec 971 (s - draw_exp r + 0)); [lia|].
  rewrite Hex. reflexivity.
Qed.

Lemma floor_mul_quarters (r : draw) (k : nat) :
  floor_mul r 4 = k <->
  (inject_Z (Z.of_nat k) <= draw_val r * inject_Z 4
   /\ draw_val r * inject_Z 4 < inject_Z (Z.of_nat k + 1))%Q.
Proof.
  rewrite floor_mul_4, Qle_draw, Qlt_draw.
  pose proof (draw_range r) as (Hm & Hm1 & Hk).
  pose proof (pow2_pos (draw_exp r) ltac:(lia)) as HD.
  set (M := draw_num r * 4) in *. set (D := 2 ^ draw_exp r) in *.
  assert (0 <= M) as HM by (unfold M; lia).
  pose proof (Z.div_mod M D ltac:(lia)) as Hdm.
  pose proof (Z.mod_pos_bound M D HD) as Hmod.
  pose proof (Z.div_pos M D HM HD) as Hq.
  split.
  - intros <-. rewrite Z2Nat.id by exact Hq. nia.
  - intros [Hlo Hhi].
    assert (M / D = Z.of_nat k) as ->.
    { symmetry. apply Z.div_unique with (r := M - Z.of_nat k * D); lia. }
    apply Nat2Z.id.
Qed.

Lemma pick_lookup (xs : list Z) (r : draw) :
  xs <> [] -> xs !! floor_mul r (length xs) = Some (pick xs r).
Proof.
  intros Hne. unfold pick.
  assert (0 < length xs)%nat as Hlen by (destruct xs; [congruence|simpl; lia]).
  pose proof (floor_mul_lt r _ Hlen) as Hlt.
  destruct (lookup_lt_is_Some_2 xs _ Hlt) as [x Hx].
  rewrite Hx. f_equal. symmetry. apply nth_lookup_Some with (d := -1) in Hx.
  exact Hx.
Qed.

Lemma pick_elem_of (xs : list Z) (r : draw) :
  xs <> [] -> pick xs r ∈ xs.
Proof.
  intros Hne. eapply list_elem_of_lookup_2, pick_lookup, Hne.
Qed.

(** ** Counting squares *)

Lemma count_insert {A} (P : A -> Prop) `{!forall x, Decision (P x)}
  (l : list A) i x y :
  l !! i = Some x ->
  (length (filter P (<[i := y]> l)) + (if decide (P x) then 1 else 0)
   = length (filter P l) + (if decide (P y) then 1 else 0))%nat.
Proof.
  revert i. induction l as [|a l IH]; intros [|i] Hi; try discriminate.
  - simpl in Hi. injection Hi as ->. simpl. rewrite !filter_cons.
    destruct (decide (P x)), (decide (P y)); simpl; lia.
  - simpl in Hi. simpl. rewrite !filter_cons. specialize (IH i Hi).
    destruct (decide (P a)); simpl; lia.
Qed.

Lemma emptyCells_fill (board : Board) i p :
  board !! i = Some None ->
  S (emptyCells (<[i := Some p]> board)) = emptyCells board.
Proof.
  intros Hi. unfold emptyCells.
  pose proof (count_insert (fun cell => cell = None) board i None (Some p) Hi) as H.
  rewrite decide_True in H by reflexivity.
  rewrite decide_False in H by discriminate. lia.
Qed.

Lemma emptyCells_all (board : Board) :
  emptyCells board = length board ->
  forall i, (i < length board)%nat -> board !! i = Some None.
Proof.
  unfold emptyCells. induction board as [|x l IH]; intros H i Hi; simpl in Hi; [lia|].
  rewrite filter_cons in H. pose proof (length_filter (fun cell => cell = None) l).
  destruct (decide (x = None)) as [->|Hx]; simpl in H; [|lia].
  destruct i as [|i]; [reflexivity|]. simpl. apply IH; lia.
Qed.

Lemma emptyCells_all_but_one (board : Board) j p :
  S (emptyCells board) = length board ->
  board !! j = Some (Some p) ->
  forall i, (i < length board)%nat -> i <> j -> board !! i = Some None.
Proof.
  unfold emptyCells. revert j.
  induction board as [|x l IH]; intros j H Hj i Hi Hij; simpl in Hi; [lia|].
  rewrite filter_cons in H. pose proof (length_filter (fun cell => cell = None) l).
  destruct j as [|j]; simpl in Hj.
  - injection Hj as ->. rewrite decide_False in H by discriminate. simpl in H.
    destruct i as [|i]; [congruence|]. simpl.
    apply emptyCells_all; unfold emptyCells; lia.
  - assert (length (filter (fun cell => cell = None) l) < length l)%nat as Hlt.
    { eapply length_filter_lt; [eapply list_elem_of_lookup_2, Hj|discriminate]. }
    destruct (decide (x = None)) as [->|Hx]; simpl in H; [|lia].
    destruct i as [|i]; [reflexivity|]. simpl. eapply IH; eauto; lia.
Qed.

(** ** The search: frame, fuel and totality *)

Section for_each_facts.
Context {S : Type}.

Lemma for_each_inv (P : S -> Prop) body (indices : list nat) s r :
  P s ->
  (forall i s s', P s -> body i s = Some s' -> P s') ->
  for_each body indices s = Some r -> P r.
Proof.
  intros Hs Hbody. revert s Hs.
  induction indices as [|i rest IH]; intros s Hs; simpl.
  - intros [= <-]. exact Hs.
  - destruct (body i s) as [s'|] eqn:E; [|discriminate].
    apply IH. eapply Hbody; eauto.
Qed.

Lemma for_each_mono (body1 body2 : nat -> S -> option S) indices s r :
  (forall i s s', body1 i s = Some s' -> body2 i s = Some s') ->
  for_each body1 indices s = Some r ->
  for_each body2 indices s = Some r.
Proof.
  intros Hb. revert s.
  induction indices as [|i rest IH]; intros s; simpl; [auto|].
  destruct (body1 i s) as [s'|] eqn:E; [|discriminate].
  rewrite (Hb _ _ _ E). apply IH.
Qed.
End for_each_facts.

Lemma minimax_unfold fuel (board : Board) depth isMaximizing :
  minimax (S fuel) board depth isMaximizing =
  match calculateWinner board with
  | Some (MarkO, _) => Some (Fin (10 - depth), board)
  | Some (MarkX, _) => Some (Fin (depth - 10), board)
  | None =>
      if every_nonnull board then Some (Fin 0, board)
      else if isMaximizing then
        for_each (searchBody (fun b => minimax fuel b (depth + 1) false)
                    MarkO num_max)
          (seq 0 (length board)) (NegInf, board)
      else
        for_each (searchBody (fun b => minimax fuel b (depth + 1) true)
                    MarkX num_min)
          (seq 0 (length board)) (PosInf, board)
  end.
Proof. reflexivity. Qed.

Lemma fill_erase (board : Board) i p :
  board !! i = Some None -> <[i := None]> (<[i := Some p]> board) = board.
Proof.
  intros Hi. rewrite list_insert_insert_eq. apply list_insert_id, Hi.
Qed.

Lemma searchBody_frame rec mark combine (board : Board) i best r :
  (forall b s b', rec b = Some (s, b') -> b' = b) ->
  searchBody rec mark combine i (best, board) = Some r ->
  snd r = board.
Proof.
  intros Hrec. unfold searchBody.
  destruct (is_null (board !! i)) eqn:Hn; [|intros [= <-]; reflexivity].
  apply is_null_true in Hn.
  destruct (rec _) as [[score b']|] eqn:E; [|discriminate].
  apply Hrec in E as ->. intros [= <-]. simpl. apply fill_erase, Hn.
Qed.

Lemma search_frame rec mark combine (board : Board) indices best r :
  (forall b s b', rec b = Some (s, b') -> b' = b) ->
  for_each (searchBody rec mark combine) indices (best, board) = Some r ->
  snd r = board.
Proof.
  intros Hrec. apply (for_each_inv (fun st => snd st = board)); [reflexivity|].
  intros i [best0 b0] s'. simpl. intros ->. apply searchBody_frame, Hrec.
Qed.

(** Whatever [minimax] explores, it returns with the array as it was. *)
Lemma minimax_frame fuel (board : Board) depth isMaximizing score board' :
  minimax fuel board depth isMaximizing = Some (score, board') ->
  board' = board.
Proof.
  revert board depth isMaximizing score board'.
  induction fuel as [|fuel IH]; intros board depth isMaximizing score board';
    [discriminate|].
  rewrite minimax_unfold.
  destruct (calculateWinner board) as [[[] l]|].
  - intros [= _ <-]. reflexivity.
  - intros [= _ <-]. reflexivity.
  - destruct (every_nonnull board); [intros [= _ <-]; reflexivity|].
    destruct isMaximizing; intros H; eapply search_frame in H; eauto.
Qed.

Lemma searchBody_mono (rec1 rec2 : Board -> option (num * Board))
  mark combine i st r :
  (forall b r, rec1 b = Some r -> rec2 b = Some r) ->
  searchBody rec1 mark combine i st = Some r ->
  searchBody rec2 mark combine i st = Some r.
Proof.
  intros Hrec. unfold searchBody. destruct st as [best board].
  destruct (is_null _); [|auto].
  destruct (rec1 _) as [[score b']|] eqn:E; [|discriminate].
  rewrite (Hrec _ _ E). auto.
Qed.

(** More fuel does not change a result. *)
Lemma minimax_fuel_S fuel (board : Board) depth isMaximizing r :
  minimax fuel board depth isMaximizing = Some r ->
  minimax (S fuel) board depth isMaximizing = Some r.
Proof.
  revert board depth isMaximizing r.
  induction fuel as [|fuel IH]; intros board depth isMaximizing r;
    [discriminate|].
  rewrite (minimax_unfold (S fuel)), (minimax_unfold fuel).
  destruct (calculateWinner board) as [[[] l]|]; try exact id.
  destruct (every_nonnull board); [exact id|].
  destruct isMaximizing; apply for_each_mono; intros i st s';
    apply searchBody_mono; intros b r0; apply IH.
Qed.

Lemma minimax_fuel_le fuel fuel' (board : Board) depth isMaximizing r :
  (fuel <= fuel')%nat ->
  minimax fuel board depth isMaximizing = Some r ->
  minimax fuel' board depth isMaximizing = Some r.
Proof.
  induction 1 as [|fuel' _ IH]; [exact id|].
  intros H. apply minimax_fuel_S, IH, H.
Qed.

Lemma num_max_finite z best :
  best = NegInf \/ finite best -> finite (num_max (Fin z) best).
Proof. intros [->|[y ->]]; simpl; eexists; reflexivity. Qed.

Lemma num_min_finite z best :
  best = PosInf \/ finite best -> finite (num_min (Fin z) best).
Proof. intros [->|[y ->]]; simpl; eexists; reflexivity. Qed.

(** A loop of [minimax] over a board whose every filled position [rec]
    scores with a number: it ends, leaves the board as it was, and its best
    score is a number as soon as one of the squares it visits is empty. *)
Lemma search_total rec mark combine init (board : Board) :
  (forall i, board !! i = Some None ->
     exists z, rec (<[i := Some mark]> board)
               = Some (Fin z, <[i := Some mark]> board)) ->
  (forall z best, best = init \/ finite best -> finite (combine (Fin z) best)) ->
  forall indices best,
    best = init \/ finite best ->
    exists best',
      for_each (searchBody rec mark combine) indices (best, board)
      = Some (best', board)
      /\ (finite best -> finite best')
      /\ (finite best'
          \/ (best' = init /\ forall i, i ∈ indices -> board !! i <> Some None)).
Proof.
  intros Hrec Hcomb. induction indices as [|i rest IH]; intros best Hbest.
  - exists best. split; [reflexivity|]. split; [auto|].
    destruct Hbest as [->|Hf]; [|auto].
    right. split; [reflexivity|]. intros i Hi. inversion Hi.
  - simpl. destruct (is_null (board !! i)) eqn:Hn.
    + apply is_null_true in Hn. destruct (Hrec i Hn) as [z ->].
      rewrite fill_erase by exact Hn.
      assert (finite (combine (Fin z) best)) as Hfin by apply Hcomb, Hbest.
      destruct (IH (combine (Fin z) best)) as (best' & Hrun & Hkeep & _);
        [right; exact Hfin|].
      exists best'. split; [exact Hrun|]. auto.
    + destruct (IH best Hbest) as (best' & Hrun & Hkeep & Hres).
      exists best'. split; [exact Hrun|]. split; [exact Hkeep|].
      destruct Hres as [Hf|[-> Hno]]; [left; exact Hf|].
      right. split; [reflexivity|]. intros j Hj.
      apply elem_of_cons in Hj as [->|Hj]; [|apply Hno, Hj].
      intros Heq. apply is_null_true in Heq. congruence.
Qed.

(** With more fuel than empty squares, [minimax] returns a number and the
    array as it was. *)
Lemma minimax_total fuel (board : Board) depth isMaximizing :
  (emptyCells board < fuel)%nat ->
  exists z, minimax fuel board depth isMaximizing = Some (Fin z, board).
Proof.
  revert board depth isMaximizing.
  induction fuel as [|fuel IH]; intros board depth isMaximizing Hfuel; [lia|].
  rewrite minimax_unfold.
  destruct (calculateWinner board) as [[[] l]|]; [eauto..|].
  destruct (every_nonnull board) eqn:Hev; [eauto|].
  apply every_nonnull_false in Hev as [i0 Hi0].
  assert (i0 ∈ seq 0 (length board)) as Hin.
  { apply elem_of_seq. apply lookup_lt_Some in Hi0. lia. }
  assert (forall mark isMax i, board !! i = Some None ->
            exists z, minimax fuel (<[i := Some mark]> board) (depth + 1) isMax
                      = Some (Fin z, <[i := Some mark]> board)) as Hrec.
  { intros mark isMax i Hi. apply IH.
    pose proof (emptyCells_fill board i mark Hi). lia. }
  destruct isMaximizing.
  - destruct (search_total (fun b => minimax fuel b (depth + 1) false)
                MarkO num_max NegInf board (Hrec MarkO false) num_max_finite
                (seq 0 (length board)) NegInf (or_introl eq_refl))
      as (best' & Hrun & _ & Hres).
    destruct Hres as [[z ->]|[_ Hno]]; [eauto|].
    exfalso. exact (Hno i0 Hin Hi0).
  - destruct (search_total (fun b => minimax fuel b (depth + 1) true)
                MarkX num_min PosInf board (Hrec MarkX true) num_min_finite
                (seq 0 (length board)) PosInf (or_introl eq_refl))
      as (best' & Hrun & _ & Hres).
    destruct Hres as [[z ->]|[_ Hno]]; [eauto|].
    exfalso. exact (Hno i0 Hin Hi0).
Qed.

Lemma hardLoop_unfold fuel (board : Board) :
  hardLoop fuel board =
  for_each (hardBody fuel) (seq 0 (length board)) (NegInf, -1, board).
Proof. reflexivity. Qed.

Lemma hardLoop_frame fuel (board : Board) best move board' :
  hardLoop fuel board = Some (best, move, board') -> board' = board.
Proof.
  rewrite hardLoop_unfold. intros H.
  apply (for_each_inv (fun st => snd st = board)) in H; [exact H|reflexivity|].
  intros i [[best0 m0] b0] s'. simpl. intros ->.
  destruct (is_null (board !! i)) eqn:Hn; [|intros [= <-]; reflexivity].
  apply is_null_true in Hn.
  destruct (minimax _ _ _ _) as [[score b']|] eqn:E; [|discriminate].
  apply minimax_frame in E as ->. rewrite fill_erase by exact Hn.
  destruct (num_gt _ _); intros [= <-]; reflexivity.
Qed.

Lemma hardLoop_fuel_le fuel fuel' (board : Board) r :
  (fuel <= fuel')%nat ->
  hardLoop fuel board = Some r -> hardLoop fuel' board = Some r.
Proof.
  intros Hle. rewrite !hardLoop_unfold. apply for_each_mono.
  intros i [[best m] b] s'. unfold hardBody.
  destruct (is_null _); [|auto].
  destruct (minimax fuel _ _ _) as [[score b']|] eqn:E; [|discriminate].
  rewrite (minimax_fuel_le _ _ _ _ _ _ Hle E). auto.
Qed.

(** The loop of [makeHardMove], started in any state, over a board whose
    empty squares number at most the fuel: it ends with the board as it was;
    either nothing changed, and then a start from [NegInf] met no empty
    square, or the move is an empty square it visited. *)
Lemma hardLoop_from fuel (board : Board) :
  (emptyCells board <= fuel)%nat ->
  forall indices best move,
    exists best' move',
      for_each (hardBody fuel) indices (best, move, board)
      = Some (best', move', board)
      /\ ((best' = best /\ move' = move
           /\ (best = NegInf ->
               forall i, i ∈ indices -> board !! i <> Some None))
          \/ (exists i, move' = Z.of_nat i /\ i ∈ indices
                        /\ board !! i = Some None /\ finite best')).
Proof.
  intros Hfuel. induction indices as [|i rest IH]; intros best move.
  - exists best, move. split; [reflexivity|]. left.
    repeat split. intros _ i Hi. inversion Hi.
  - simpl. destruct (is_null (board !! i)) eqn:Hn.
    + apply is_null_true in Hn.
      destruct (minimax_total fuel (<[i := Some MarkO]> board) 0 false)
        as [z ->].
      { pose proof (emptyCells_fill board i MarkO Hn). lia. }
      rewrite fill_erase by exact Hn.
      destruct (num_gt (Fin z) best) eqn:Hgt.
      * destruct (IH (Fin z) (Z.of_nat i)) as (best' & move' & Hrun & Hres).
        exists best', move'. split; [exact Hrun|]. right.
        destruct Hres as [(-> & -> & _)|(j & -> & Hj & Hnull & Hfin)].
        -- exists i. split; [reflexivity|]. split; [left|].
           split; [exact Hn|]. eexists; reflexivity.
        -- exists j. split; [reflexivity|]. split; [right; exact Hj|]. auto.
      * destruct (IH best move) as (best' & move' & Hrun & Hres).
        exists best', move'. split; [exact Hrun|].
        destruct Hres as [(-> & -> & _)|(j & -> & Hj & Hnull & Hfin)].
        -- left. repeat split. intros ->. discriminate.
        -- right. exists j. split; [reflexivity|]. split; [right; exact Hj|]. auto.
    + destruct (IH best move) as (best' & move' & Hrun & Hres).
      exists best', move'. split; [exact Hrun|].
      destruct Hres as [(-> & -> & Hno)|(j & -> & Hj & Hnull & Hfin)].
      * left. repeat split. intros Hb j Hj.
        apply elem_of_cons in Hj as [->|Hj]; [|apply Hno; assumption].
        intros Heq. apply is_null_true in Heq. congruence.
      * right. exists j. split; [reflexivity|]. split; [right; exact Hj|]. auto.
Qed.

Lemma validMove_index (board : Board) i :
  board !! i = Some None -> validMove board (Z.of_nat i).
Proof.
  intros Hi. split.
  - right. rewrite Nat2Z.id. split; [lia|exact Hi].
  - split; [lia|]. intros H. exfalso. exact (H i Hi).
Qed.

Lemma hardLoop_valid fuel (board : Board) :
  (emptyCells board <= fuel)%nat ->
  exists best move,
    hardLoop fuel board = Some (best, move, board) /\ validMove board move.
Proof.
  intros Hfuel. rewrite hardLoop_unfold.
  destruct (hardLoop_from fuel board Hfuel (seq 0 (length board)) NegInf (-1))
    as (best' & move' & Hrun & Hres).
  exists best', move'. split; [exact Hrun|].
  destruct Hres as [(-> & -> & Hno)|(j & -> & Hj & Hnull & Hfin)].
  - assert (forall i, board !! i <> Some None) as Hnone.
    { intros i Hi. apply (Hno eq_refl i); [|exact Hi].
      apply elem_of_seq. apply lookup_lt_Some in Hi. lia. }
    split; [left; reflexivity|]. split; auto.
  - apply validMove_index, Hnull.
Qed.

(** ** The strategies return playable squares *)

Lemma validMove_null (board : Board) move :
  0 <= move -> board !! Z.to_nat move = Some None -> validMove board move.
Proof.
  intros H0 Hnull. rewrite <- (Z2Nat.id move H0). apply validMove_index, Hnull.
Qed.

Lemma emptyCells_le_length (board : Board) :
  (emptyCells board <= length board)%nat.
Proof. apply length_filter. Qed.

Lemma elem_of_availableMoves (board : Board) move :
  move ∈ availableMoves board <->
  exists i, move = Z.of_nat i /\ board !! i = Some None.
Proof.
  unfold availableMoves. rewrite list_elem_of_filter, elem_of_lookup_imap.
  split.
  - intros (Hne & i & x & -> & Hi). case_bool_decide; [|congruence].
    subst x. eauto.
  - intros (i & -> & Hi). split; [lia|]. exists i, None.
    rewrite bool_decide_eq_true_2 by reflexivity. auto.
Qed.

Lemma randomMove_valid (board : Board) g :
  validMove board (fst (randomMove board g)).
Proof.
  unfold randomMove, bind, random, ret.
  destruct (0 <? length (availableMoves board))%nat eqn:El; cbn [fst].
  - apply Nat.ltb_lt in El.
    assert (availableMoves board <> []) as Hne
        by (intros H; rewrite H in El; simpl in El; lia).
    pose proof (pick_elem_of _ (g 0%nat) Hne) as Hin.
    apply elem_of_availableMoves in Hin as (i & -> & Hi).
    apply validMove_index, Hi.
  - apply Nat.ltb_ge in El.
    split; [left; reflexivity|]. split; [|reflexivity].
    intros _ i Hi.
    assert (Z.of_nat i ∈ availableMoves board) as Hin
        by (apply elem_of_availableMoves; eauto).
    destruct (availableMoves board); [inversion Hin|simpl in El; lia].
Qed.

Lemma findWinningMove_valid (board : Board) player :
  findWinningMove board player <> -1 ->
  validMove board (findWinningMove board player).
Proof.
  intros H. apply findWinningMove_some in H as (i & -> & Hi & _).
  apply validMove_index, Hi.
Qed.

Lemma makeEasyMove_valid (board : Board) g :
  validMove board (fst (makeEasyMove board g)).
Proof.
  unfold makeEasyMove, bind, random, ret.
  destruct (draw_lt _ _); [|apply randomMove_valid].
  destruct (findWinningMove board MarkO =? -1) eqn:Ew; simpl.
  - destruct (draw_lt _ _); [|apply randomMove_valid].
    destruct (findWinningMove board MarkX =? -1) eqn:Eb; simpl;
      [apply randomMove_valid|].
    apply findWinningMove_valid. lia.
  - apply findWinningMove_valid. lia.
Qed.

Lemma makeMediumMove_valid (board : Board) g :
  validMove board (fst (makeMediumMove board g)).
Proof.
  unfold makeMediumMove, bind, random, ret.
  destruct (findWinningMove board MarkO =? -1) eqn:Ew; simpl;
    [|apply findWinningMove_valid; lia].
  destruct (findWinningMove board MarkX =? -1) eqn:Eb; simpl;
    [|apply findWinningMove_valid; lia].
  destruct (is_null (board !! 4%nat)) eqn:E4.
  { apply is_null_true in E4. apply (validMove_index board 4 E4). }
  set (availableCorners := filter _ [0; 2; 6; 8]).
  destruct (0 <? length availableCorners)%nat eqn:El; cbn [fst];
    [|apply randomMove_valid].
  apply Nat.ltb_lt in El.
  assert (availableCorners <> []) as Hne
      by (intros H; rewrite H in El; simpl in El; lia).
  pose proof (pick_elem_of _ (g 0%nat) Hne) as Hin.
  apply list_elem_of_filter in Hin as [Hnull Hin].
  apply validMove_null; [|exact Hnull].
  revert Hin. generalize (pick availableCorners (g 0%nat)). intros m Hin.
  repeat (apply elem_of_cons in Hin as [->|Hin]; [lia|]). inversion Hin.
Qed.

(** [makeHardMove] returns the array as it was. *)
Lemma makeHardMove_frame fuel (board : Board) g move board' :
  fst (makeHardMove fuel board g) = Some (move, board') -> board' = board.
Proof.
  unfold makeHardMove, bind, random, ret.
  destruct (_ =? 9)%nat; simpl; [intros [= _ <-]; reflexivity|].
  destruct (_ && _); simpl; [intros [= _ <-]; reflexivity|].
  destruct (hardLoop fuel board) as [[[best m] b]|] eqn:E; [|discriminate].
  apply hardLoop_frame in E as ->. intros [= _ <-]. reflexivity.
Qed.

(** On a board of nine squares, with fuel for its empty squares,
    [makeHardMove] returns a playable square. *)
Lemma makeHardMove_valid fuel (board : Board) g :
  length board = 9%nat ->
  (emptyCells board <= fuel)%nat ->
  exists move,
    fst (makeHardMove fuel board g) = Some (move, board)
    /\ validMove board move.
Proof.
  intros Hlen Hfuel. unfold makeHardMove, bind, random, ret.
  destruct (emptyCells board =? 9)%nat eqn:E9; simpl.
  { apply Nat.eqb_eq in E9. exists 4. split; [reflexivity|].
    apply (validMove_index board 4), emptyCells_all; lia. }
  destruct ((emptyCells board =? 8)%nat && _) eqn:E8; simpl.
  { apply andb_true_iff in E8 as [E8 Hc]. apply Nat.eqb_eq in E8.
    apply is_mark_true in Hc. eexists. split; [reflexivity|].
    pose proof (pick_elem_of [0; 2; 6; 8] (g 0%nat) ltac:(discriminate)) as Hin.
    revert Hin. generalize (pick [0; 2; 6; 8] (g 0%nat)). intros m Hin.
    assert (forall i, (i < 9)%nat -> i <> 4%nat -> board !! i = Some None) as Hothers.
    { intros i Hi Hne. eapply emptyCells_all_but_one; eauto; lia. }
    repeat (apply elem_of_cons in Hin as [->|Hin];
            [apply validMove_null; [lia|apply Hothers; simpl; lia]|]).
    inversion Hin. }
  destruct (hardLoop_valid fuel board Hfuel) as (best & move & -> & Hvalid).
  eauto.
Qed.

(** C6. For every board of nine squares and every outcome of the random
    draws, each of [makeEasyMove], [makeMediumMove] and [makeHardMove]
    (which returns, given fuel for the nine squares) returns [-1] or the
    index of an empty square, and returns [-1] exactly when the board has no
    empty square. *)
Theorem strategies_return_empty_square (board : Board) (g : rng) (fuel : nat) :
  length board = 9%nat ->
  (9 <= fuel)%nat ->
  validMove board (fst (makeEasyMove board g))
  /\ validMove board (fst (makeMediumMove board g))
  /\ exists move, fst (makeHardMove fuel board g) = Some (move, board)
                  /\ validMove board move.
Proof.
  intros Hlen Hfuel. split; [apply makeEasyMove_valid|].
  split; [apply makeMediumMove_valid|].
  apply makeHardMove_valid; [exact Hlen|].
  pose proof (emptyCells_le_length board). lia.
Qed.

(** ** The strategies leave the array as they found it *)

Lemma makeHardMove_total fuel (board : Board) g :
  (emptyCells board <= fuel)%nat ->
  exists move, fst (makeHardMove fuel board g) = Some (move, board).
Proof.
  intros Hfuel. unfold makeHardMove, bind, random, ret.
  destruct (_ =? 9)%nat; simpl; [eauto|].
  destruct (_ && _); simpl; [eauto|].
  destruct (hardLoop_valid fuel board Hfuel) as (best & move & -> & _).
  eauto.
Qed.

(** C10. For every board, every difficulty and every outcome of the random
    draws, the strategy call of [makeComputerMove] returns with the array
    equal to its value at the call, and it does return when the fuel covers
    the empty squares; so does every call of [minimax], whose loops write a
    mark into the array and erase it. *)
Theorem strategies_leave_board (d : Difficulty) (fuel : nat) (board : Board)
  (g : rng) :
  (forall move board',
     fst (strategyMove fuel d board g) = Some (move, board') -> board' = board)
  /\ ((emptyCells board <= fuel)%nat ->
      exists move, fst (strategyMove fuel d board g) = Some (move, board))
  /\ (forall depth isMaximizing,
        (forall score board',
           minimax fuel board depth isMaximizing = Some (score, board') ->
           board' = board)
        /\ ((emptyCells board < fuel)%nat ->
            exists score,
              minimax fuel board depth isMaximizing = Some (score, board))).
Proof.
  split; [|split].
  - intros move board'. destruct d; simpl.
    + unfold bind, ret. destruct (makeEasyMove board g). simpl.
      intros [= _ <-]. reflexivity.
    + unfold bind, ret. destruct (makeMediumMove board g). simpl.
      intros [= _ <-]. reflexivity.
    + apply makeHardMove_frame.
  - intros Hfuel. destruct d; simpl.
    + unfold bind, ret. destruct (makeEasyMove board g). simpl. eauto.
    + unfold bind, ret. destruct (makeMediumMove board g). simpl. eauto.
    + apply makeHardMove_total, Hfuel.
  - intros depth isMaximizing. split.
    + intros score board'. apply minimax_frame.
    + intros Hfuel.
      destruct (minimax_total fuel board depth isMaximizing Hfuel) as [z Hz].
      eauto.
Qed.

(** ** Deciding winning moves *)

Lemma winningMoveb_spec (board : Board) p i :
  winningMoveb board p i = true <-> winningMove board p i.
Proof.
  unfold winningMoveb, winningMove.
  rewrite andb_true_iff, is_null_true, existsb_exists, Exists_exists.
  split.
  - intros (Hi & l & Hl & Ht). split; [exact Hi|]. exists l.
    apply list_elem_of_In in Hl. split; [exact Hl|].
    pose proof (proj1 (Forall_forall _ _) lines_distinct l Hl) as Hd.
    destruct l as [[a b] c]. apply fills_iff; [assumption..|].
    repeat (apply orb_true_iff in Ht as [Ht|Ht]);
      repeat (apply andb_true_iff in Ht as [Ht ?]);
      apply Nat.eqb_eq in Ht; reflect_cells; auto.
  - intros (Hi & l & Hl & Hf). split; [exact Hi|]. exists l.
    pose proof (proj1 (Forall_forall _ _) lines_distinct l Hl) as Hd.
    apply list_elem_of_In in Hl. split; [exact Hl|].
    destruct l as [[a b] c]. apply fills_iff in Hf; [|assumption..].
    destruct Hf as [(-> & H1 & H2)|[(-> & H1 & H2)|(-> & H1 & H2)]];
      apply is_mark_true in H1, H2; rewrite H1, H2, Nat.eqb_refl; simpl;
      rewrite ?orb_true_r; reflexivity.
Qed.

(** ** All boards of nine squares *)

Lemma elem_of_boards (board : Board) : board ∈ boards (length board).
Proof.
  induction board as [|x board IH]; simpl; [left|].
  apply list_elem_of_bind. exists board. split; [|exact IH].
  destruct x as [[]|]; [right; left|right; right; left|left].
Qed.

Lemma makeHardMove_hardMoves fuel (board : Board) g move board' :
  (emptyCells board <= 9)%nat ->
  fst (makeHardMove fuel board g) = Some (move, board') ->
  move ∈ hardMoves board.
Proof.
  intros Hnine. unfold makeHardMove, hardMoves, bind, random, ret.
  destruct (_ =? 9)%nat; simpl; [intros [= <- _]; left|].
  destruct (_ && _); simpl.
  { intros [= <- _]. apply pick_elem_of. discriminate. }
  destruct (hardLoop fuel board) as [[[best m] b]|] eqn:E; [|discriminate].
  intros [= -> _].
  destruct (hardLoop_valid 9 board Hnine) as (best9 & m9 & E9 & _).
  rewrite E9.
  apply (hardLoop_fuel_le _ (Nat.max fuel 9)) in E; [|lia].
  apply (hardLoop_fuel_le _ (Nat.max fuel 9)) in E9; [|lia].
  rewrite E in E9. injection E9 as _ -> _. left.
Qed.

Lemma hardTakesWin_all : forallb hardTakesWin (boards 9) = true.
Proof. vm_compute. reflexivity. Qed.

Lemma hardBlocks_all : forallb hardBlocks (boards 9) = true.
Proof. vm_compute. reflexivity. Qed.

(** ** Taking a win and blocking one *)

Lemma fuel_covers_board (board : Board) fuel :
  length board = 9%nat -> (9 <= fuel)%nat -> (emptyCells board <= fuel)%nat.
Proof. intros Hlen Hfuel. pose proof (emptyCells_le_length board). lia. Qed.

Lemma boards_check (check : Board -> bool) (board : Board) :
  forallb check (boards 9) = true -> length board = 9%nat -> check board = true.
Proof.
  intros Hall Hlen. rewrite forallb_forall in Hall. apply Hall.
  apply list_elem_of_In. rewrite <- Hlen. apply elem_of_boards.
Qed.

(** What [makeHardMove] returns is one of [hardMoves], and it returns. *)
Lemma makeHardMove_some (board : Board) g fuel :
  length board = 9%nat -> (9 <= fuel)%nat ->
  exists move, fst (makeHardMove fuel board g) = Some (move, board)
               /\ move ∈ hardMoves board.
Proof.
  intros Hlen Hfuel.
  destruct (makeHardMove_total fuel board g) as [move Hmove];
    [apply fuel_covers_board; assumption|].
  exists move. split; [exact Hmove|].
  eapply makeHardMove_hardMoves; [|exact Hmove].
  apply fuel_covers_board; [exact Hlen|lia].
Qed.

Lemma medium_takes_win (board : Board) g :
  (exists i, winningMove board MarkO i) ->
  exists i, fst (makeMediumMove board g) = Z.of_nat i
            /\ winningMove board MarkO i.
Proof.
  intros [i0 Hi0]. unfold makeMediumMove.
  destruct (findWinningMove board MarkO =? -1) eqn:Ew; simpl.
  - apply Z.eqb_eq in Ew. exfalso.
    exact (proj1 (findWinningMove_none _ _) Ew i0 Hi0).
  - apply Z.eqb_neq, findWinningMove_some in Ew as (i & -> & Hi). eauto.
Qed.

Lemma medium_blocks (board : Board) g :
  (forall i, ~ winningMove board MarkO i) ->
  (exists i, winningMove board MarkX i) ->
  exists i, fst (makeMediumMove board g) = Z.of_nat i
            /\ winningMove board MarkX i.
Proof.
  intros Hno [i0 Hi0]. unfold makeMediumMove.
  apply findWinningMove_none in Hno. rewrite Hno. simpl.
  destruct (findWinningMove board MarkX =? -1) eqn:Eb; simpl.
  - apply Z.eqb_eq in Eb. exfalso.
    exact (proj1 (findWinningMove_none _ _) Eb i0 Hi0).
  - apply Z.eqb_neq, findWinningMove_some in Eb as (i & -> & Hi). eauto.
Qed.

(** C2, amended. On every board where the computer has an immediate
    winning move, [makeMediumMove] returns one; [makeHardMove] returns one
    on every such board of nine squares on which no line is complete
    already. *)
Theorem win_is_taken (board : Board) (g : rng) (fuel : nat) :
  (exists i, winningMove board MarkO i) ->
  (exists i, fst (makeMediumMove board g) = Z.of_nat i
             /\ winningMove board MarkO i)
  /\ (length board = 9%nat -> (9 <= fuel)%nat ->
      calculateWinner board = None ->
      exists i, fst (makeHardMove fuel board g) = Some (Z.of_nat i, board)
                /\ winningMove board MarkO i).
Proof.
  intros Hwin. split; [apply medium_takes_win, Hwin|].
  intros Hlen Hfuel Hnone.
  pose proof (boards_check _ board hardTakesWin_all Hlen) as Hcheck.
  unfold hardTakesWin in Hcheck.
  rewrite bool_decide_eq_true_2 in Hcheck by exact Hnone.
  destruct (findWinningMove board MarkO =? -1) eqn:Ew.
  { apply Z.eqb_eq in Ew. destruct Hwin as [i Hi].
    exfalso. exact (proj1 (findWinningMove_none _ _) Ew i Hi). }
  simpl in Hcheck. rewrite forallb_forall in Hcheck.
  destruct (makeHardMove_some board g fuel Hlen Hfuel) as (move & Hmove & Hin).
  apply list_elem_of_In, Hcheck, andb_true_iff in Hin as [H0 Hw].
  apply Z.leb_le in H0. apply winningMoveb_spec in Hw.
  exists (Z.to_nat move). rewrite Z2Nat.id by exact H0. auto.
Qed.

(** C3, amended. On every board where the computer has no immediate
    winning move and the opponent has one, [makeMediumMove] returns a
    square that blocks one; [makeHardMove] does on every such board of nine
    squares on which no line is complete already and the opponent's
    immediate wins are all at one square. *)
Theorem threat_is_blocked (board : Board) (g : rng) (fuel : nat) :
  (forall i, ~ winningMove board MarkO i) ->
  (exists i, winningMove board MarkX i) ->
  (exists i, fst (makeMediumMove board g) = Z.of_nat i
             /\ winningMove board MarkX i)
  /\ (length board = 9%nat -> (9 <= fuel)%nat ->
      calculateWinner board = None ->
      (forall i j, winningMove board MarkX i -> winningMove board MarkX j ->
                   i = j) ->
      exists i, fst (makeHardMove fuel board g) = Some (Z.of_nat i, board)
                /\ winningMove board MarkX i).
Proof.
  intros Hno Hthreat. split; [apply medium_blocks; assumption|].
  intros Hlen Hfuel Hnone Hone.
  pose proof (boards_check _ board hardBlocks_all Hlen) as Hcheck.
  unfold hardBlocks in Hcheck.
  rewrite bool_decide_eq_true_2 in Hcheck by exact Hnone.
  apply findWinningMove_none in Hno. rewrite Hno in Hcheck.
  destruct (findWinningMove board MarkX =? -1) eqn:Eb.
  { apply Z.eqb_eq in Eb. destruct Hthreat as [i Hi].
    exfalso. exact (proj1 (findWinningMove_none _ _) Eb i Hi). }
  simpl in Hcheck.
  destruct (twoWinningMoves board MarkX) eqn:Etwo.
  { exfalso. unfold twoWinningMoves in Etwo.
    apply existsb_exists in Etwo as (i & _ & Etwo).
    apply existsb_exists in Etwo as (j & _ & Etwo).
    apply andb_true_iff in Etwo as [Etwo Hj].
    apply andb_true_iff in Etwo as [Hij Hi].
    apply winningMoveb_spec in Hi, Hj. apply negb_true_iff, Nat.eqb_neq in Hij.
    exact (Hij (Hone i j Hi Hj)). }
  rewrite forallb_forall in Hcheck.
  destruct (makeHardMove_some board g fuel Hlen Hfuel) as (move & Hmove & Hin).
  apply list_elem_of_In, Hcheck, andb_true_iff in Hin as [H0 Hw].
  apply Z.leb_le in H0. apply winningMoveb_spec in Hw.
  exists (Z.to_nat move). rewrite Z2Nat.id by exact H0. auto.
Qed.

Lemma elem_of_winningCells (board : Board) p i :
  i ∈ winningCells board p <-> winningMove board p i.
Proof.
  unfold winningCells. rewrite list_elem_of_filter, winningMoveb_spec, elem_of_seq.
  split; [tauto|]. intros H. split; [exact H|].
  destruct H as [H _]. apply lookup_lt_Some in H. lia.
Qed.

(** ** Boards on which the hard strategy misses a win or a block *)

(** C2, as stated, fails: on [[X,X,X, _,_,_, O,O,_]] the computer has the
    immediate winning move 8, and [makeHardMove] returns 3, which completes
    no line: with the top row complete every move scores [-10], and the
    first empty square is kept. *)
Lemma hard_misses_win_on_won_board :
  winningMove boardWonAlready MarkO 8
  /\ fst (makeHardMove 9 boardWonAlready (constRng draw0))
     = Some (3, boardWonAlready)
  /\ ~ winningMove boardWonAlready MarkO 3.
Proof.
  split; [apply winningMoveb_spec; reflexivity|].
  split; [vm_compute; reflexivity|].
  intros H. apply winningMoveb_spec in H. discriminate.
Qed.

Lemma win_is_taken_witness :
  (exists i, fst (makeMediumMove boardWinAt2 (constRng draw0)) = Z.of_nat i
             /\ winningMove boardWinAt2 MarkO i)
  /\ (exists i, fst (makeHardMove 9 boardWinAt2 (constRng draw0))
                = Some (Z.of_nat i, boardWinAt2)
                /\ winningMove boardWinAt2 MarkO i).
Proof.
  assert (exists i, winningMove boardWinAt2 MarkO i) as Hwin.
  { exists 2%nat. apply winningMoveb_spec. reflexivity. }
  destruct (win_is_taken boardWinAt2 (constRng draw0) 9 Hwin) as [Hm Hh].
  split; [exact Hm|]. apply Hh; [reflexivity|lia|reflexivity].
Defined.

(** C3, as stated, fails: on [[O,_,X, O,_,_, X,_,X]] the computer has no
    immediate winning move, the player has one (at 4, and at 5 and 7), and
    [makeHardMove] returns 1, which is on no line with two of the player's
    marks. *)
Lemma hard_does_not_block_fork :
  (forall i, ~ winningMove boardFork MarkO i)
  /\ winningMove boardFork MarkX 4
  /\ fst (makeHardMove 9 boardFork (constRng draw0)) = Some (1, boardFork)
  /\ ~ winningMove boardFork MarkX 1.
Proof.
  split; [apply findWinningMove_none; reflexivity|].
  split; [apply winningMoveb_spec; reflexivity|].
  split; [vm_compute; reflexivity|].
  intros H. apply winningMoveb_spec in H. discriminate.
Qed.

Lemma threat_is_blocked_witness :
  (exists i, fst (makeMediumMove boardThreatAt2 (constRng draw0)) = Z.of_nat i
             /\ winningMove boardThreatAt2 MarkX i)
  /\ (exists i, fst (makeHardMove 9 boardThreatAt2 (constRng draw0))
                = Some (Z.of_nat i, boardThreatAt2)
                /\ winningMove boardThreatAt2 MarkX i).
Proof.
  assert (forall i, ~ winningMove boardThreatAt2 MarkO i) as Hno.
  { apply findWinningMove_none. reflexivity. }
  assert (exists i, winningMove boardThreatAt2 MarkX i) as Hthreat.
  { exists 2%nat. apply winningMoveb_spec. reflexivity. }
  destruct (threat_is_blocked boardThreatAt2 (constRng draw0) 9 Hno Hthreat)
    as [Hm Hh].
  split; [exact Hm|]. apply Hh; [reflexivity|lia|reflexivity|].
  intros i j Hi Hj. apply elem_of_winningCells in Hi, Hj.
  change (winningCells boardThreatAt2 MarkX) with [2%nat] in Hi, Hj.
  apply list_elem_of_singleton in Hi, Hj. congruence.
Defined.

Lemma strategies_return_empty_square_witness :
  validMove boardThreatAt2 (fst (makeEasyMove boardThreatAt2 (constRng draw0)))
  /\ validMove boardThreatAt2
       (fst (makeMediumMove boardThreatAt2 (constRng draw0)))
  /\ exists move,
       fst (makeHardMove 9 boardThreatAt2 (constRng draw0))
       = Some (move, boardThreatAt2)
       /\ validMove boardThreatAt2 move.
Proof.
  apply (strategies_return_empty_square boardThreatAt2 (constRng draw0) 9);
    [reflexivity|lia].
Defined.

(** ** The session: what every reachable state satisfies *)

Lemma statusEffect_squares s : squares (statusEffect s) = squares s.
Proof.
  unfold statusEffect. destruct (calculateWinner _) as [[p l]|]; [reflexivity|].
  destruct (every_nonnull _); reflexivity.
Qed.

Lemma statusEffect_isPlayerTurn s :
  isPlayerTurn (statusEffect s) = isPlayerTurn s.
Proof.
  unfold statusEffect. destruct (calculateWinner _) as [[p l]|]; [reflexivity|].
  destruct (every_nonnull _); reflexivity.
Qed.

Lemma statusEffect_difficulty s : difficulty (statusEffect s) = difficulty s.
Proof.
  unfold statusEffect. destruct (calculateWinner _) as [[p l]|]; [reflexivity|].
  destruct (every_nonnull _); reflexivity.
Qed.

Lemma statusEffect_gameOver s :
  gameOver (statusEffect s)
  = match evaluate (squares s) with
    | InProgress => gameOver s
    | _ => true
    end.
Proof.
  unfold statusEffect, evaluate.
  destruct (calculateWinner _) as [[p l]|]; [reflexivity|].
  destruct (every_nonnull _); reflexivity.
Qed.

Lemma statusEffect_status s :
  status (statusEffect s)
  = match evaluate (squares s) with
    | Won MarkX _ => "You win!"
    | Won MarkO _ => "Computer wins!"
    | Draw => "It's a draw!"
    | InProgress =>
        if isPlayerTurn s then "Your turn (X)" else "Computer's turn (O)..."
    end%string.
Proof.
  unfold statusEffect, evaluate.
  destruct (calculateWinner _) as [[[] l]|]; [reflexivity..|].
  destruct (every_nonnull _); reflexivity.
Qed.

Lemma Session_eq s s' :
  squares s = squares s' -> isPlayerTurn s = isPlayerTurn s' ->
  gameOver s = gameOver s' -> status s = status s' ->
  difficulty s = difficulty s' -> s = s'.
Proof. destruct s, s'. simpl. intros. subst. reflexivity. Qed.

(** Running the status effect twice is running it once. *)
Lemma statusEffect_idempotent s :
  statusEffect (statusEffect s) = statusEffect s.
Proof.
  apply Session_eq.
  - apply statusEffect_squares.
  - apply statusEffect_isPlayerTurn.
  - rewrite !statusEffect_gameOver, statusEffect_squares.
    destruct (evaluate _); reflexivity.
  - rewrite !statusEffect_status, statusEffect_squares, statusEffect_isPlayerTurn.
    reflexivity.
  - apply statusEffect_difficulty.
Qed.

Lemma settle (s : Session) :
  length (squares s) = 9%nat ->
  (gameOver s = true -> evaluate (squares s) <> InProgress) ->
  settled (statusEffect s).
Proof.
  intros Hlen Hover. split; [|split].
  - rewrite statusEffect_squares. exact Hlen.
  - apply statusEffect_idempotent.
  - rewrite statusEffect_gameOver, statusEffect_squares.
    destruct (evaluate (squares s)); try discriminate. exact Hover.
Qed.

Lemma settled_gameOver s :
  settled s -> gameOver s = false -> evaluate (squares s) = InProgress.
Proof.
  intros (_ & Hfix & _) Hover. rewrite <- Hfix in Hover.
  rewrite statusEffect_gameOver in Hover.
  destruct (evaluate (squares s)); try discriminate. reflexivity.
Qed.

Lemma evaluate_InProgress (board : Board) :
  evaluate board = InProgress -> exists i, board !! i = Some None.
Proof.
  unfold evaluate. destruct (calculateWinner board) as [[p l]|]; [discriminate|].
  destruct (every_nonnull board) eqn:E; [discriminate|].
  intros _. apply every_nonnull_false, E.
Qed.

(** [handleClick] either ignores the click or writes the player's mark
    into an empty square and passes the turn. *)
Lemma handleClick_cases i s :
  length (squares s) = 9%nat -> (i < 9)%nat ->
  handleClick i s = s
  \/ (gameOver s = false /\ isPlayerTurn s = true
      /\ squares s !! i = Some None
      /\ handleClick i s
         = {| squares := <[i := Some MarkX]> (squares s);
              isPlayerTurn := false;
              gameOver := gameOver s;
              status := status s;
              difficulty := difficulty s |}).
Proof.
  intros Hlen Hi. unfold handleClick.
  destruct (gameOver s) eqn:Hover; simpl; [left; reflexivity|].
  destruct (squares s !! i) as [[p|]|] eqn:Hsq; simpl; [left; reflexivity| |].
  - destruct (isPlayerTurn s); simpl; [|left; reflexivity].
    right. auto.
  - apply lookup_ge_None in Hsq. lia.
Qed.

Lemma makeHardMove_fuel_le fuel fuel' (board : Board) g r :
  (fuel <= fuel')%nat ->
  fst (makeHardMove fuel board g) = Some r ->
  fst (makeHardMove fuel' board g) = Some r.
Proof.
  intros Hle. unfold makeHardMove, bind, random, ret.
  destruct (_ =? 9)%nat; simpl; [exact id|].
  destruct (_ && _); simpl; [exact id|].
  destruct (hardLoop fuel board) as [[[best m] b]|] eqn:E; [|discriminate].
  rewrite (hardLoop_fuel_le _ _ _ _ Hle E). exact id.
Qed.

(** Whatever the fuel, a move a strategy returns on nine squares is
    playable, and the array is as it was. *)
Lemma strategyMove_valid fuel d (board : Board) g move board' :
  length board = 9%nat ->
  fst (strategyMove fuel d board g) = Some (move, board') ->
  board' = board /\ validMove board move.
Proof.
  intros Hlen. destruct d; simpl; unfold bind, ret.
  - pose proof (makeEasyMove_valid board g) as Hv.
    destruct (makeEasyMove board g). simpl in *. intros [= <- <-]. auto.
  - pose proof (makeMediumMove_valid board g) as Hv.
    destruct (makeMediumMove board g). simpl in *. intros [= <- <-]. auto.
  - intros H. pose proof (makeHardMove_frame _ _ _ _ _ H) as ->.
    split; [reflexivity|].
    apply (makeHardMove_fuel_le _ (Nat.max fuel 9)) in H; [|lia].
    destruct (makeHardMove_valid (Nat.max fuel 9) board g Hlen) as (m & Hm & Hv).
    { pose proof (emptyCells_le_length board). lia. }
    rewrite Hm in H. injection H as <-. exact Hv.
Qed.

(** [makeComputerMove] on a board in progress writes the computer's mark
    into an empty square and passes the turn. *)
Lemma makeComputerMove_cases fuel s g s1 :
  length (squares s) = 9%nat ->
  evaluate (squares s) = InProgress ->
  fst (makeComputerMove fuel s g) = Some s1 ->
  exists i,
    squares s !! i = Some None
    /\ fst (strategyMove fuel (difficulty s) (squares s) g)
       = Some (Z.of_nat i, squares s)
    /\ s1 = {| squares := <[i := Some MarkO]> (squares s);
               isPlayerTurn := true;
               gameOver := gameOver s;
               status := status s;
               difficulty := difficulty s |}.
Proof.
  intros Hlen Hprog. unfold makeComputerMove, bind, ret.
  destruct (strategyMove fuel (difficulty s) (squares s) g)
    as [[[move board']|] g'] eqn:E; simpl; [|discriminate].
  assert (fst (strategyMove fuel (difficulty s) (squares s) g)
          = Some (move, board')) as E' by (rewrite E; reflexivity).
  apply strategyMove_valid in E' as [-> [Hmove Hnone]]; [|exact Hlen].
  apply evaluate_InProgress in Hprog as [i0 Hi0].
  destruct Hmove as [->|[H0 Hnull]].
  { exfalso. exact (proj1 Hnone eq_refl i0 Hi0). }
  assert ((move =? -1) = false) as -> by lia. simpl.
  intros [= <-]. exists (Z.to_nat move).
  rewrite Z2Nat.id by exact H0. auto.
Qed.

Lemma reachable_settled s : reachable s -> settled s.
Proof.
  induction 1 as [|s s' Hreach IH Hstep].
  - apply settle; [reflexivity|discriminate].
  - destruct IH as (Hlen & Hfix & Hover).
    destruct Hstep as [i Hi|fuel g s1 Hturn Hnot Hmove| |value].
    + destruct (handleClick_cases i s Hlen Hi) as [->|(Hno & _ & _ & ->)].
      * apply settle; assumption.
      * apply settle; simpl; [rewrite length_insert; exact Hlen|congruence].
    + pose proof (settled_gameOver s (conj Hlen (conj Hfix Hover)) Hnot) as Hprog.
      destruct (makeComputerMove_cases _ _ _ _ Hlen Hprog Hmove)
        as (i & _ & _ & ->).
      apply settle; simpl; [rewrite length_insert; exact Hlen|congruence].
    + apply settle; [reflexivity|discriminate].
    + apply settle; [reflexivity|discriminate].
Qed.

(** ** The balance of marks *)

Lemma countMark_insert (board : Board) i p q :
  board !! i = Some None ->
  countMark q (<[i := Some p]> board)
  = (countMark q board + if decide (p = q) then 1 else 0)%nat.
Proof.
  intros Hi. unfold countMark.
  pose proof (count_insert (fun cell => cell = Some q) board i None (Some p) Hi)
    as H.
  rewrite decide_False in H by discriminate.
  destruct (decide (p = q)) as [->|Hne].
  - rewrite decide_True in H by reflexivity. lia.
  - rewrite decide_False in H by congruence. lia.
Qed.

Lemma balanced_statusEffect s : balanced s -> balanced (statusEffect s).
Proof.
  unfold balanced. rewrite statusEffect_isPlayerTurn, statusEffect_squares.
  exact id.
Qed.

Lemma reachable_balanced s : reachable s -> balanced s.
Proof.
  induction 1 as [|s s' Hreach IH Hstep].
  - reflexivity.
  - pose proof (reachable_settled s Hreach) as Hset.
    pose proof Hset as (Hlen & _ & _).
    destruct Hstep as [i Hi|fuel g s1 Hturn Hnot Hmove| |value];
      apply balanced_statusEffect.
    + destruct (handleClick_cases i s Hlen Hi)
        as [->|(_ & Hturn & Hnull & ->)]; [exact IH|].
      unfold balanced in *. rewrite Hturn in IH. simpl.
      rewrite !countMark_insert by exact Hnull.
      repeat case_decide; try discriminate; try congruence; lia.
    + pose proof (settled_gameOver s Hset Hnot) as Hprog.
      destruct (makeComputerMove_cases _ _ _ _ Hlen Hprog Hmove)
        as (i & Hnull & _ & ->).
      unfold balanced in *. rewrite Hturn in IH. simpl.
      rewrite !countMark_insert by exact Hnull.
      repeat case_decide; try discriminate; try congruence; lia.
    + reflexivity.
    + reflexivity.
Qed.

(** C5. In every state a session reaches from its initial state by clicks,
    computer moves, resets and changes of difficulty, the board holds as
    many ["X"] as ["O"], or one more. *)
Theorem marks_balanced (s : Session) :
  reachable s ->
  countMark MarkX (squares s) = countMark MarkO (squares s)
  \/ countMark MarkX (squares s) = S (countMark MarkO (squares s)).
Proof.
  intros H. apply reachable_balanced in H. unfold balanced in H.
  destruct (isPlayerTurn s); auto.
Qed.

Lemma afterOneRound_reachable : reachable afterOneRound.
Proof.
  eapply reach_step.
  - eapply reach_step; [apply reach_initial|].
    apply (step_click _ 4). lia.
  - eapply (step_computer _ 9 (constRng draw0)); reflexivity.
Qed.

Lemma marks_balanced_witness :
  countMark MarkX (squares afterOneRound)
  = countMark MarkO (squares afterOneRound)
  \/ countMark MarkX (squares afterOneRound)
     = S (countMark MarkO (squares afterOneRound)).
Proof. apply (marks_balanced afterOneRound afterOneRound_reachable). Defined.

(** ** The status text *)

(** C7, as stated, fails: the status of the initial state is
    ["Your turn (X)"], not ["Your turn"]. *)
Lemma initial_status_names_marker :
  reachable (statusEffect initial)
  /\ statusMapping "Your turn" "Computer's turn…" (statusEffect initial)
     = Some "Your turn"%string
  /\ status (statusEffect initial) = "Your turn (X)"%string
  /\ status (statusEffect initial) <> "Your turn"%string.
Proof.
  split; [apply reach_initial|]. split; [reflexivity|].
  split; [reflexivity|]. discriminate.
Qed.

(** C7, amended. The status text of every reachable state is the mapping's
    with ["Your turn (X)"] for the player's turn and
    ["Computer's turn (O)..."] for the computer's: these while the game goes
    on, ["You win!"], ["Computer wins!"] or ["It's a draw!"] when it is
    over. *)
Theorem status_follows_mapping (s : Session) :
  reachable s ->
  statusMapping "Your turn (X)" "Computer's turn (O)..." s = Some (status s).
Proof.
  intros H. apply reachable_settled in H as (_ & Hfix & Hover).
  unfold statusMapping. rewrite <- Hfix at 4. rewrite statusEffect_status.
  destruct (gameOver s) eqn:Hg.
  - specialize (Hover eq_refl). destruct (evaluate (squares s)) as [[]| |];
      try reflexivity. congruence.
  - rewrite <- Hfix in Hg. rewrite statusEffect_gameOver in Hg.
    destruct (evaluate (squares s)); try discriminate.
    destruct (isPlayerTurn s); reflexivity.
Qed.

Lemma status_follows_mapping_witness :
  statusMapping "Your turn (X)" "Computer's turn (O)..." afterOneRound
  = Some (status afterOneRound).
Proof.
  apply (status_follows_mapping afterOneRound afterOneRound_reachable).
Defined.

(** ** Ignored clicks *)

(** C9. A click on an occupied square, or while it is the computer's turn,
    or after the game is over, leaves the whole session state as it was:
    [handleClick] sets nothing, and in a reachable state the status effect
    changes nothing either. *)
Theorem invalid_click_ignored (s : Session) (i : nat) :
  gameOver s = true \/ truthy (squares s !! i) = true
  \/ isPlayerTurn s = false ->
  handleClick i s = s
  /\ (reachable s -> statusEffect (handleClick i s) = s).
Proof.
  intros Hinvalid.
  assert (handleClick i s = s) as Hsame.
  { unfold handleClick. destruct Hinvalid as [->|[->| ->]];
      rewrite ?orb_true_r; reflexivity. }
  split; [exact Hsame|]. intros Hreach. rewrite Hsame.
  apply reachable_settled in Hreach as (_ & Hfix & _). exact Hfix.
Qed.

Lemma invalid_click_ignored_witness :
  handleClick 4 afterOneRound = afterOneRound
  /\ (reachable afterOneRound ->
      statusEffect (handleClick 4 afterOneRound) = afterOneRound).
Proof.
  apply (invalid_click_ignored afterOneRound 4). right. left. reflexivity.
Defined.

(** ** The hard strategy never loses *)

Lemma playerNeverWins_emptyBoard : playerNeverWins 5 emptyBoard = true.
Proof. vm_compute. reflexivity. Qed.

Lemma playerNeverWins_S n (board : Board) :
  playerNeverWins (S n) board =
  forallb
    (fun i =>
       if is_null (board !! i) then
         let b1 := <[i := Some MarkX]> board in
         match evaluate b1 with
         | Won MarkX _ => false
         | Won MarkO _ | Draw => true
         | InProgress =>
             forallb (answerSafe (playerNeverWins n) b1) (hardMoves b1)
         end
       else true)
    (seq 0 9).
Proof. reflexivity. Qed.

Lemma hardSafe_statusEffect s : hardSafe s -> hardSafe (statusEffect s).
Proof.
  unfold hardSafe. rewrite statusEffect_squares, statusEffect_isPlayerTurn.
  exact id.
Qed.

Lemma hardSafe_resetGame s : hardSafe (resetGame s).
Proof. exists 5%nat. apply playerNeverWins_emptyBoard. Qed.

Lemma handleClick_difficulty i s : difficulty (handleClick i s) = difficulty s.
Proof. unfold handleClick. destruct (_ || _); reflexivity. Qed.

Lemma reachable_hardSafe s : reachable s -> difficulty s = hard -> hardSafe s.
Proof.
  induction 1 as [|s s' Hreach IH Hstep]; [discriminate|].
  pose proof (reachable_settled s Hreach) as Hset.
  pose proof Hset as (Hlen & _ & _).
  destruct Hstep as [i Hi|fuel g s1 Hturn Hnot Hmove| |value];
    rewrite statusEffect_difficulty; intros Hhard; apply hardSafe_statusEffect.
  - rewrite handleClick_difficulty in Hhard. specialize (IH Hhard).
    destruct (handleClick_cases i s Hlen Hi)
      as [->|(Hnot & Hturn & Hnull & ->)]; [exact IH|].
    unfold hardSafe in *. simpl.
    rewrite (settled_gameOver s Hset Hnot), Hturn in IH.
    destruct IH as [[|n] IH]; [discriminate|].
    rewrite playerNeverWins_S, forallb_forall in IH.
    specialize (IH i ltac:(apply in_seq; lia)).
    rewrite Hnull in IH. cbn [is_null] in IH.
    destruct (evaluate (<[i := Some MarkX]> (squares s))) as [[]| |];
      [discriminate|exact I|exact I|].
    exists n. exact IH.
  - pose proof (settled_gameOver s Hset Hnot) as Hprog.
    destruct (makeComputerMove_cases _ _ _ _ Hlen Hprog Hmove)
      as (i & Hnull & Hstrategy & ->).
    simpl in Hhard. specialize (IH Hhard). rewrite Hhard in Hstrategy.
    simpl in Hstrategy.
    apply makeHardMove_hardMoves in Hstrategy;
      [|pose proof (emptyCells_le_length (squares s)); lia].
    unfold hardSafe in *. simpl. rewrite Hprog, Hturn in IH.
    destruct IH as [n IH]. rewrite forallb_forall in IH.
    apply list_elem_of_In, IH in Hstrategy. unfold answerSafe in Hstrategy.
    assert ((Z.of_nat i <? 0) = false) as Hpos by (apply Z.ltb_ge; lia).
    rewrite Hpos, Nat2Z.id in Hstrategy.
    destruct (evaluate (<[i := Some MarkO]> (squares s))) as [[]| |];
      [discriminate|exact I|exact I|].
    exists n. exact Hstrategy.
  - apply hardSafe_resetGame.
  - apply hardSafe_resetGame.
Qed.

(** C1. In every state a session reaches in which the difficulty is hard,
    so that every computer move since the board was last cleared was
    [makeHardMove]'s, the player has not won: [evaluate] is no [Won] of
    ["X"], and [calculateWinner] names no ["X"]. *)
Theorem hard_never_loses (s : Session) :
  reachable s ->
  difficulty s = hard ->
  (forall line, evaluate (squares s) <> Won MarkX line)
  /\ (forall line, calculateWinner (squares s) <> Some (MarkX, line)).
Proof.
  intros Hreach Hhard. pose proof (reachable_hardSafe s Hreach Hhard) as H.
  unfold hardSafe, evaluate in *.
  destruct (calculateWinner (squares s)) as [[[] l]|]; [contradiction|..];
    split; intros line; try discriminate;
    destruct (every_nonnull (squares s)); discriminate.
Qed.

Lemma afterOneHardRound_reachable : reachable afterOneHardRound.
Proof.
  eapply reach_step.
  - eapply reach_step.
    + eapply reach_step; [apply reach_initial|]. apply (step_difficulty _ hard).
    + apply (step_click _ 4). lia.
  - eapply (step_computer _ 9 (constRng draw0)); reflexivity.
Qed.

Lemma hard_never_loses_witness :
  (forall line, evaluate (squares afterOneHardRound) <> Won MarkX line)
  /\ (forall line,
        calculateWinner (squares afterOneHardRound) <> Some (MarkX, line)).
Proof.
  apply (hard_never_loses afterOneHardRound afterOneHardRound_reachable).
  reflexivity.
Defined.

(** ** The easy strategy *)




(** ** The rounding at work *)

(** The literal [0.3] is the double that the division of 3 by 10 gives,
    [5404319552844595 * 2^-54]; it is below 3/10 and within half a unit of
    its last place of it. *)
Lemma double_0_3_nearest :
  SFdiv 53 1024 (double_of 3 0) (double_of 10 0)
  = S754_finite false 5404319552844595 (-54)
  /\ double_of 5404319552844595 (-54)
     = S754_finite false 5404319552844595 (-54)
  /\ (double_0_3 < 3 # 10)%Q
  /\ 2 * (3 * 2 ^ 54 - 10 * 5404319552844595) < 10.
Proof.
  split; [vm_compute; reflexivity|]. split; [vm_compute; reflexivity|].
  split; [reflexivity|]. vm_compute. reflexivity.
Qed.

(** The double nearest to the exact product is the product that
    [SpecFloat]'s multiplication gives the two doubles. *)
Lemma double_of_product_examples :
  double_of (6004799503160661 * 3) (-53)
  = SFmul 53 1024 (double_of 6004799503160661 (-53)) (double_of 3 0)
  /\ double_of (9007199254740991 * 9) (-53)
     = SFmul 53 1024 (double_of 9007199254740991 (-53)) (double_of 9 0)
  /\ double_of (5404319552844595 * 5) (-54)
     = SFmul 53 1024 (double_of 5404319552844595 (-54)) (double_of 5 0)
  /\ double_of (1 * 7) (-1074)
     = SFmul 53 1024 (double_of 1 (-1074)) (double_of 7 0).
Proof.
  split; [vm_compute; reflexivity|]. split; [vm_compute; reflexivity|].
  split; vm_compute; reflexivity.
Qed.

(** A draw of 0.6666666666666666 among three: the exact product is below
    2, the double product is 2, and the third is chosen. *)
Lemma floor_mul_rounds_up :
  floor_mul drawBelowTwoThirds 3 = 2%nat
  /\ Qfloor (draw_val drawBelowTwoThirds * inject_Z 3) = 1.
Proof. split; vm_compute; reflexivity. Qed.

(** A first draw of 0.3 is not below 0.3: on [[O,O,_, X,X,_, _,_,_]]
    [makeEasyMove] takes no win and draws again, 0.875 of five empty
    squares. *)
Lemma easy_draw_at_threshold :
  draw_lt drawAtThreshold double_0_3 = false
  /\ findWinningMove boardTwoThreats MarkO = 2
  /\ fst (makeEasyMove boardTwoThreats thresholdThenSevenEighths) = 8.
Proof.
  split; [vm_compute; reflexivity|]. split; vm_compute; reflexivity.
Qed.

(** On [[X,_,_, _,O,X, _,_,_]] a draw of 0.6666666666666666 has
    [makeMediumMove] play the third of the empty corners 2, 6, 8. *)
Lemma medium_corner_rounds_up :
  fst (makeMediumMove boardCentreTaken (constRng drawBelowTwoThirds)) = 8.
Proof. vm_compute. reflexivity. Qed.

(** * Further properties of the engine *)

(** ** Transitions of the session *)

Lemma complete_fill_other (board : Board) i p q l :
  board !! i = Some None -> p <> q ->
  complete (<[i := Some p]> board) l q -> complete board l q.
Proof.
  intros Hi Hpq. destruct l as [[a b] c]. simpl.
  assert (forall j, <[i := Some p]> board !! j = Some (Some q) ->
                    board !! j = Some (Some q)) as Hcell.
  { intros j. destruct (decide (i = j)) as [<-|Hne].
    - rewrite list_lookup_insert_eq by (eapply lookup_lt_Some, Hi). congruence.
    - rewrite list_lookup_insert_ne by exact Hne. exact id. }
  intros (Ha & Hb & Hc). auto.
Qed.

Lemma evaluate_InProgress_none (board : Board) :
  evaluate board = InProgress -> none_complete lines board.
Proof.
  unfold evaluate, calculateWinner.
  destruct (calculateWinner_from lines board) as [[p l]|] eqn:E; [discriminate|].
  intros _. apply calculateWinner_from_None, E.
Qed.

(** What a transition does to the board: nothing, or it clears it, or it
    writes the mover's mark into one empty square and passes the turn. *)
Lemma step_board s s' :
  reachable s -> step s s' ->
  squares s' = squares s
  \/ s' = freshSession (difficulty s')
  \/ (gameOver s = false
      /\ exists i, squares s !! i = Some None
           /\ squares s' = <[i := Some (moverMark s)]> (squares s)
           /\ isPlayerTurn s' = negb (isPlayerTurn s)).
Proof.
  intros Hreach Hstep. pose proof (reachable_settled s Hreach) as Hset.
  pose proof Hset as (Hlen & _ & _).
  destruct Hstep as [i Hi|fuel g s1 Hturn Hnot Hmove| |value].
  - destruct (handleClick_cases i s Hlen Hi)
      as [->|(Hnot & Hturn & Hnull & ->)].
    + left. apply statusEffect_squares.
    + right; right. split; [exact Hnot|]. exists i. split; [exact Hnull|].
      rewrite statusEffect_squares, statusEffect_isPlayerTurn.
      unfold moverMark. rewrite Hturn. auto.
  - pose proof (settled_gameOver s Hset Hnot) as Hprog.
    destruct (makeComputerMove_cases _ _ _ _ Hlen Hprog Hmove)
      as (i & Hnull & _ & ->).
    right; right. split; [exact Hnot|]. exists i. split; [exact Hnull|].
    rewrite statusEffect_squares, statusEffect_isPlayerTurn.
    unfold moverMark. rewrite Hturn. auto.
  - right; left. reflexivity.
  - right; left. reflexivity.
Qed.

(** X1. Every transition of a reachable session either leaves the board as
    it is (an ignored click), or gives the fresh session of [resetGame], or
    writes the mark of the side to move into exactly one empty square and
    passes the turn; so a mark on the board is never overwritten or erased
    by a move, only by a reset. *)
Theorem transition_fills_one_square (s s' : Session) :
  reachable s -> step s s' ->
  (squares s' = squares s
   \/ s' = freshSession (difficulty s')
   \/ (gameOver s = false
       /\ exists i, squares s !! i = Some None
            /\ squares s' = <[i := Some (moverMark s)]> (squares s)
            /\ isPlayerTurn s' = negb (isPlayerTurn s)))
  /\ (squares s' = emptyBoard
      \/ forall j p, squares s !! j = Some (Some p) ->
                     squares s' !! j = Some (Some p)).
Proof.
  intros Hreach Hstep. pose proof (step_board s s' Hreach Hstep) as H.
  split; [exact H|].
  destruct H as [->|[->|(_ & i & Hnull & -> & _)]]; [right; auto|left; reflexivity|].
  right. intros j p Hj. rewrite list_lookup_insert_ne; [exact Hj|].
  intros ->. congruence.
Qed.

Lemma step_centre_click : step (statusEffect initial) afterCentreClick.
Proof. apply (step_click _ 4). lia. Qed.

Lemma afterCentreClick_reachable : reachable afterCentreClick.
Proof. eapply reach_step; [apply reach_initial|apply step_centre_click]. Qed.

Lemma transition_fills_one_square_witness :
  (squares afterCentreClick = squares (statusEffect initial)
   \/ afterCentreClick = freshSession (difficulty afterCentreClick)
   \/ (gameOver (statusEffect initial) = false
       /\ exists i, squares (statusEffect initial) !! i = Some None
            /\ squares afterCentreClick
               = <[i := Some (moverMark (statusEffect initial))]>
                   (squares (statusEffect initial))
            /\ isPlayerTurn afterCentreClick
               = negb (isPlayerTurn (statusEffect initial))))
  /\ (squares afterCentreClick = emptyBoard
      \/ forall j p,
           squares (statusEffect initial) !! j = Some (Some p) ->
           squares afterCentreClick !! j = Some (Some p)).
Proof.
  apply (transition_fills_one_square _ _ reach_initial step_centre_click).
Defined.

(** X2. In no reachable state do both sides hold a complete line: the
    board on which a move is made has none, and the move completes lines
    of the mover only. *)
Theorem never_two_winners (s : Session) :
  reachable s ->
  forall l l', l ∈ lines -> l' ∈ lines ->
    ~ (complete (squares s) l MarkX /\ complete (squares s) l' MarkO).
Proof.
  induction 1 as [|s s' Hreach IH Hstep].
  { intros l l' _ _ [Hx _]. destruct l as [[a b] c].
    destruct Hx as (Ha & _). simpl in Ha.
    apply list_elem_of_lookup_2 in Ha.
    unfold emptyBoard in Ha. apply elem_of_replicate in Ha as [Ha _].
    discriminate. }
  pose proof (reachable_settled s Hreach) as Hset.
  destruct (step_board s s' Hreach Hstep)
    as [->|[->|(Hnot & i & Hnull & -> & _)]]; [exact IH| |].
  - intros l l' _ _ [Hx _]. destruct l as [[a b] c].
    destruct Hx as (Ha & _). simpl in Ha.
    apply list_elem_of_lookup_2 in Ha.
    unfold emptyBoard in Ha. apply elem_of_replicate in Ha as [Ha _].
    discriminate.
  - pose proof (evaluate_InProgress_none _ (settled_gameOver s Hset Hnot)) as Hnone.
    intros l l' Hl Hl' [Hx Ho]. unfold moverMark in *.
    destruct (isPlayerTurn s).
    + apply complete_fill_other in Ho; [|exact Hnull|discriminate].
      exact (Hnone l' MarkO Hl' Ho).
    + apply complete_fill_other in Hx; [|exact Hnull|discriminate].
      exact (Hnone l MarkX Hl Hx).
Qed.

Lemma never_two_winners_witness :
  reachable afterOneRound
  /\ ~ (complete (squares afterOneRound) (0, 4, 8)%nat MarkX
        /\ complete (squares afterOneRound) (0, 3, 6)%nat MarkO).
Proof.
  split; [exact afterOneRound_reachable|].
  apply (never_two_winners afterOneRound afterOneRound_reachable);
    unfold lines; repeat constructor.
Defined.

Lemma strategyMove_total fuel d (board : Board) g :
  (emptyCells board <= fuel)%nat ->
  exists move, fst (strategyMove fuel d board g) = Some (move, board).
Proof.
  intros Hfuel. destruct d; simpl; unfold bind, ret.
  - destruct (makeEasyMove board g). simpl. eauto.
  - destruct (makeMediumMove board g). simpl. eauto.
  - apply makeHardMove_total, Hfuel.
Qed.

Lemma makeComputerMove_total fuel s g :
  (emptyCells (squares s) <= fuel)%nat ->
  exists s1, fst (makeComputerMove fuel s g) = Some s1.
Proof.
  intros Hfuel. unfold makeComputerMove, bind, ret.
  destruct (strategyMove_total fuel (difficulty s) (squares s) g Hfuel)
    as [move Hmove].
  destruct (strategyMove fuel (difficulty s) (squares s) g) as [r g'].
  simpl in *. subst r. destruct (negb _); eauto.
Qed.

Lemma reachable_click s i :
  reachable s -> (i < 9)%nat -> reachable (clickAndSettle i s).
Proof.
  intros Hreach Hi. eapply reach_step; [exact Hreach|].
  apply step_click, Hi.
Qed.

Lemma reachable_answer s g :
  reachable s -> isPlayerTurn s = false -> gameOver s = false ->
  reachable (computerAndSettle g s).
Proof.
  intros Hreach Hturn Hnot. unfold computerAndSettle.
  destruct (fst (makeComputerMove 9 s g)) as [s1|] eqn:E; [|exact Hreach].
  eapply reach_step; [exact Hreach|].
  eapply step_computer; eassumption.
Qed.

Lemma reachable_round s i :
  reachable s -> (i < 9)%nat ->
  isPlayerTurn (clickAndSettle i s) = false ->
  gameOver (clickAndSettle i s) = false ->
  reachable (playRound i s).
Proof.
  intros Hreach Hi Hturn Hnot. apply reachable_answer; [|assumption..].
  apply reachable_click; assumption.
Qed.

Lemma drawnGame_reachable : reachable drawnGame.
Proof.
  unfold drawnGame.
  apply reachable_click; [|lia].
  repeat (apply reachable_round; [|lia|reflexivity|reflexivity]).
  apply reach_initial.
Qed.

(** X3. When the timer of the computer's move fires in a reachable state
    (the computer to move, the game not over), [makeComputerMove] returns,
    whatever the difficulty and the draws, given fuel for nine squares, and
    the strategy has not answered [-1]: one empty square of the board got
    the computer's mark and the turn is the player's. *)
Theorem computer_always_moves (s : Session) (g : rng) (fuel : nat) :
  reachable s ->
  isPlayerTurn s = false -> gameOver s = false ->
  (9 <= fuel)%nat ->
  exists i,
    squares s !! i = Some None
    /\ fst (strategyMove fuel (difficulty s) (squares s) g)
       = Some (Z.of_nat i, squares s)
    /\ fst (makeComputerMove fuel s g)
       = Some {| squares := <[i := Some MarkO]> (squares s);
                 isPlayerTurn := true;
                 gameOver := gameOver s;
                 status := status s;
                 difficulty := difficulty s |}.
Proof.
  intros Hreach Hturn Hnot Hfuel.
  pose proof (reachable_settled s Hreach) as Hset.
  pose proof Hset as (Hlen & _ & _).
  pose proof (settled_gameOver s Hset Hnot) as Hprog.
  destruct (makeComputerMove_total fuel s g) as [s1 Hs1].
  { apply fuel_covers_board; assumption. }
  destruct (makeComputerMove_cases _ _ _ _ Hlen Hprog Hs1)
    as (i & Hnull & Hstrategy & ->).
  exists i. auto.
Qed.

Lemma computer_always_moves_witness :
  exists i,
    squares afterCentreClick !! i = Some None
    /\ fst (strategyMove 9 (difficulty afterCentreClick)
              (squares afterCentreClick) (constRng draw0))
       = Some (Z.of_nat i, squares afterCentreClick)
    /\ fst (makeComputerMove 9 afterCentreClick (constRng draw0))
       = Some {| squares := <[i := Some MarkO]> (squares afterCentreClick);
                 isPlayerTurn := true;
                 gameOver := gameOver afterCentreClick;
                 status := status afterCentreClick;
                 difficulty := difficulty afterCentreClick |}.
Proof.
  apply (computer_always_moves afterCentreClick (constRng draw0) 9
           afterCentreClick_reachable); [reflexivity|reflexivity|lia].
Defined.

(** X4. In every reachable state the game-over flag is set exactly when the
    board is finished: some line is complete or no square is empty. *)
Theorem game_over_iff_finished (s : Session) :
  reachable s ->
  (gameOver s = true <-> evaluate (squares s) <> InProgress)
  /\ (gameOver s = false <->
      none_complete lines (squares s)
      /\ exists i, squares s !! i = Some None).
Proof.
  intros Hreach. pose proof (reachable_settled s Hreach) as Hset.
  pose proof Hset as (_ & _ & Hover).
  assert (gameOver s = true <-> evaluate (squares s) <> InProgress) as Hiff.
  { split; [exact Hover|]. intros Hne.
    destruct (gameOver s) eqn:Hg; [reflexivity|].
    exfalso. exact (Hne (settled_gameOver s Hset Hg)). }
  split; [exact Hiff|]. split.
  - intros Hg. pose proof (settled_gameOver s Hset Hg) as Hprog.
    split; [apply evaluate_InProgress_none, Hprog|].
    apply evaluate_InProgress, Hprog.
  - intros [Hnone Hempty]. destruct (gameOver s) eqn:Hg; [|reflexivity].
    exfalso. apply (proj1 Hiff eq_refl).
    unfold evaluate, calculateWinner.
    rewrite (proj2 (calculateWinner_from_None _ _) Hnone).
    rewrite (proj2 (every_nonnull_false _) Hempty). reflexivity.
Qed.

Lemma game_over_iff_finished_witness :
  (gameOver afterOneRound = true
   <-> evaluate (squares afterOneRound) <> InProgress)
  /\ (gameOver afterOneRound = false <->
      none_complete lines (squares afterOneRound)
      /\ exists i, squares afterOneRound !! i = Some None).
Proof. apply (game_over_iff_finished afterOneRound afterOneRound_reachable). Defined.

(** X5. In every reachable state the turn flag agrees with the marks on the
    board: it is the player's turn exactly when the board holds as many
    ["X"] as ["O"]. *)
Theorem turn_follows_marks (s : Session) :
  reachable s ->
  (isPlayerTurn s = true <->
   countMark MarkX (squares s) = countMark MarkO (squares s)).
Proof.
  intros Hreach. apply reachable_balanced in Hreach. unfold balanced in Hreach.
  destruct (isPlayerTurn s); split; try reflexivity; try (intros; assumption).
  - discriminate.
  - intros Heq. lia.
Qed.

Lemma turn_follows_marks_witness :
  isPlayerTurn afterOneRound = true <->
  countMark MarkX (squares afterOneRound)
  = countMark MarkO (squares afterOneRound).
Proof. apply (turn_follows_marks afterOneRound afterOneRound_reachable). Defined.

(** X6. Whatever the state, a reset and a change of difficulty give the
    fresh session (empty board, the player's turn, not over, status
    ["Your turn (X)"]), with the difficulty kept or set; and on it the
    click on any of the nine squares is accepted: the square holds ["X"],
    it is the computer's turn and the game goes on. *)
Theorem reset_gives_fresh_session (s : Session) (value : Difficulty) (i : nat) :
  statusEffect (resetGame s) = freshSession (difficulty s)
  /\ statusEffect (handleDifficultyChange value s) = freshSession value
  /\ ((i < 9)%nat ->
      statusEffect (handleClick i (freshSession value))
      = {| squares := <[i := Some MarkX]> emptyBoard;
           isPlayerTurn := false;
           gameOver := false;
           status := "Computer's turn (O)...";
           difficulty := value |}).
Proof.
  split; [reflexivity|]. split; [reflexivity|]. intros Hi.
  do 9 (destruct i as [|i]; [reflexivity|]). lia.
Qed.

(** ** What the view shows *)

Lemma calculateWinner_line (squares : Board) p l :
  calculateWinner squares = Some (p, l) ->
  l ∈ lines /\ complete squares l p.
Proof.
  intros H. apply calculateWinner_from_Some in H as (pre & post & Hl & Hc & _).
  split; [|exact Hc]. change lines with lines in Hl. rewrite Hl.
  apply elem_of_app. right. left.
Qed.

(** X7. The squares the view highlights are those of the line
    [calculateWinner] returns: none without a winner; with a winner, three
    of the nine squares, each holding the winner's mark and each disabled.
    In a reachable session a square is highlighted only when the game is
    over. *)
Theorem highlighted_squares (squares0 : Board) :
  (calculateWinner squares0 = None ->
   forall i, winningSquare squares0 i = false)
  /\ (forall p l,
        calculateWinner squares0 = Some (p, l) ->
        (forall i, winningSquare squares0 i = true ->
                   squares0 !! i = Some (Some p)
                   /\ disabled (squares0 !! i) = true)
        /\ length (filter (fun i => winningSquare squares0 i = true) (seq 0 9))
           = 3%nat)
  /\ (forall s i, reachable s -> winningSquare (squares s) i = true ->
                  gameOver s = true).
Proof.
  split; [|split].
  - intros Hnone i. unfold winningSquare, winningLine. rewrite Hnone.
    apply bool_decide_eq_false_2. intros H. inversion H.
  - intros p l Hw. pose proof (calculateWinner_line _ _ _ Hw) as [Hl Hc].
    split.
    + intros i Hi. unfold winningSquare, winningLine in Hi. rewrite Hw in Hi.
      destruct l as [[a b] c]. apply bool_decide_eq_true_1 in Hi.
      destruct Hc as (Ha & Hb & Hc).
      assert (squares0 !! i = Some (Some p)) as Hcell.
      { repeat (apply elem_of_cons in Hi as [->|Hi]; [assumption|]).
        inversion Hi. }
      rewrite Hcell. auto.
    + unfold winningSquare, winningLine. rewrite Hw. clear -Hl.
      unfold lines in Hl.
      repeat (apply elem_of_cons in Hl as [->|Hl]; [reflexivity|]).
      inversion Hl.
  - intros s i Hreach Hi.
    pose proof (reachable_settled s Hreach) as (_ & _ & Hover) .
    destruct (gameOver s) eqn:Hg; [reflexivity|].
    pose proof (settled_gameOver s (reachable_settled s Hreach) Hg) as Hprog.
    unfold winningSquare, winningLine in Hi. unfold evaluate in Hprog.
    destruct (calculateWinner (squares s)) as [[p l]|]; [discriminate|].
    apply bool_decide_eq_true_1 in Hi. inversion Hi.
Qed.

(** ** How a game ends in a draw *)

Lemma count_partition (board : Board) :
  (countMark MarkX board + countMark MarkO board + emptyCells board
   = length board)%nat.
Proof.
  unfold countMark, emptyCells. induction board as [|x board IH]; [reflexivity|].
  rewrite !filter_cons. simpl.
  destruct x as [[]|]; repeat case_decide; try congruence; simpl; lia.
Qed.

Lemma emptyCells_none (board : Board) :
  (forall i, board !! i <> Some None) -> emptyCells board = 0%nat.
Proof.
  intros H. unfold emptyCells.
  destruct (filter _ board) as [|x l] eqn:E; [reflexivity|].
  assert (x ∈ filter (fun cell : SquareValue => cell = None) board) as Hx
      by (rewrite E; left).
  apply list_elem_of_filter in Hx as [-> Hx].
  apply list_elem_of_lookup in Hx as [i Hi]. exfalso. exact (H i Hi).
Qed.

(** X8. A game that ends in a draw ends on the player's move: in a
    reachable state whose board is a draw, the board holds five ["X"] and
    four ["O"], and the turn flag is the computer's. *)
Theorem draw_ends_on_player_move (s : Session) :
  reachable s ->
  evaluate (squares s) = Draw ->
  countMark MarkX (squares s) = 5%nat
  /\ countMark MarkO (squares s) = 4%nat
  /\ isPlayerTurn s = false.
Proof.
  intros Hreach Hdraw.
  pose proof (reachable_settled s Hreach) as (Hlen & _ & _).
  pose proof (reachable_balanced s Hreach) as Hbal. unfold balanced in Hbal.
  pose proof (count_partition (squares s)) as Hsum.
  assert (emptyCells (squares s) = 0%nat) as Hfull.
  { apply emptyCells_none. unfold evaluate in Hdraw.
    destruct (calculateWinner (squares s)) as [[p l]|]; [discriminate|].
    destruct (every_nonnull (squares s)) eqn:E; [|discriminate].
    apply every_nonnull_true, E. }
  destruct (isPlayerTurn s); lia.
Qed.

Lemma draw_ends_on_player_move_witness :
  countMark MarkX (squares drawnGame) = 5%nat
  /\ countMark MarkO (squares drawnGame) = 4%nat
  /\ isPlayerTurn drawnGame = false.
Proof.
  apply (draw_ends_on_player_move drawnGame drawnGame_reachable). reflexivity.
Defined.

(** ** The helper [findWinningMove] *)

Lemma fills_unique (board : Board) p l i j :
  distinct3 l ->
  board !! i = Some None -> board !! j = Some None ->
  fills board p i l -> fills board p j l -> i = j.
Proof.
  destruct l as [[a b] c]. intros Hd Hi Hj Hfi Hfj.
  apply fills_iff in Hfi; [|assumption..].
  apply fills_iff in Hfj; [|assumption..].
  destruct Hfi as [(-> & ? & ?)|[(-> & ? & ?)|(-> & ? & ?)]];
    destruct Hfj as [(-> & ? & ?)|[(-> & ? & ?)|(-> & ? & ?)]];
    congruence.
Qed.

Lemma findWinningMove_from_nonneg ls (board : Board) p :
  -1 <= findWinningMove_from ls board p.
Proof.
  induction ls as [|[[a b] c] rest IH]; simpl; [lia|].
  destruct (_ || _); [|exact IH].
  destruct (is_null _); [lia|]. destruct (is_null _); lia.
Qed.

Lemma findWinningMove_from_cons l rest (board : Board) p :
  findWinningMove_from (l :: rest) board p
  = if findWinningMove_from [l] board p =? -1
    then findWinningMove_from rest board p
    else findWinningMove_from [l] board p.
Proof.
  destruct l as [[a b] c]. simpl. destruct (_ || _); [|reflexivity].
  destruct (is_null (board !! a));
    [|destruct (is_null (board !! b))];
    match goal with
    | |- _ = if ?t then _ else _ =>
        assert (t = false) as -> by (apply Z.eqb_neq; lia)
    end; reflexivity.
Qed.

Lemma findWinningMove_from_first ls (board : Board) p i :
  Forall distinct3 ls ->
  findWinningMove_from ls board p = Z.of_nat i <-> firstFilled ls board p i.
Proof.
  induction ls as [|l rest IH]; intros Hd.
  - simpl. split; [lia|]. intros (pre & l & post & H & _).
    destruct pre; discriminate.
  - apply Forall_cons in Hd as [Hd Hrest]. specialize (IH Hrest).
    rewrite findWinningMove_from_cons.
    destruct (findWinningMove_from_spec [l] board p) as [[Hr Hn]|(r & Hr & Hnull & Hex)];
      [repeat constructor; exact Hd| |].
    + rewrite Hr. simpl. rewrite IH.
      assert (forall j, board !! j = Some None -> ~ fills board p j l) as Hno.
      { intros j Hj Hf. apply (Hn j Hj). left. exact Hf. }
      split.
      * intros (pre & l0 & post & -> & Hi & Hf & Hp).
        exists (l :: pre), l0, post.
        split; [reflexivity|]. split; [exact Hi|]. split; [exact Hf|].
        intros l' j Hl'. apply elem_of_cons in Hl' as [->|Hl']; [apply Hno|].
        apply Hp, Hl'.
      * intros (pre & l0 & post & Heq & Hi & Hf & Hp).
        destruct pre as [|l1 pre]; simpl in Heq; injection Heq as <- ->.
        { exfalso. exact (Hno i Hi Hf). }
        exists pre, l0, post.
        split; [reflexivity|]. split; [exact Hi|]. split; [exact Hf|].
        intros l' j Hl'. apply Hp. right. exact Hl'.
    + apply Exists_cons in Hex as [Hf|Hex]; [|inversion Hex].
      rewrite Hr. assert ((Z.of_nat r =? -1) = false) as -> by (apply Z.eqb_neq; lia).
      split.
      * intros Heq. apply Nat2Z.inj in Heq as <-.
        exists [], l, rest.
        split; [reflexivity|]. split; [exact Hnull|]. split; [exact Hf|].
        intros l' j Hl'. inversion Hl'.
      * intros (pre & l0 & post & Heq & Hi & Hfi & Hp).
        destruct pre as [|l1 pre]; simpl in Heq; injection Heq as <- ->.
        -- f_equal. eapply fills_unique; eassumption.
        -- exfalso. apply (Hp l r); [left|exact Hnull|exact Hf].
Qed.

(** X9. [findWinningMove] returns the empty square of the first line, in
    the order rows, columns, diagonals, that holds two marks of the player
    asked for and an empty square; it returns [-1] exactly when no line is
    such; any other result is the index of an empty square. *)
Theorem findWinningMove_first_line (board : Board) (player : Mark) :
  (forall i, findWinningMove board player = Z.of_nat i <->
             firstFilled lines board player i)
  /\ (findWinningMove board player = -1 <->
      forall i, ~ winningMove board player i)
  /\ (findWinningMove board player = -1
      \/ exists i, findWinningMove board player = Z.of_nat i
                   /\ board !! i = Some None).
Proof.
  split; [|split].
  - intros i. apply findWinningMove_from_first, lines_distinct.
  - apply findWinningMove_none.
  - destruct (Z.eq_dec (findWinningMove board player) (-1)) as [H|H];
      [left; exact H|right].
    apply findWinningMove_some in H as (i & Hi & Hnull & _). eauto.
Qed.

(** ** The lower tiers of the medium strategy *)



(** ** The choice of [makeHardMove] among equal scores *)

Lemma num_gt_Fin x best :
  num_gt (Fin x) best = true <->
  best = NegInf \/ exists y, best = Fin y /\ y < x.
Proof.
  destruct best as [|y|]; simpl.
  - split; auto.
  - rewrite Z.ltb_lt. split.
    + intros H. right. eauto.
    + intros [H|(y' & [= <-] & H)]; [discriminate|exact H].
  - split; [discriminate|]. intros [H|(y & H & _)]; discriminate.
Qed.

Lemma hardScore_empty fuel (board : Board) i :
  (emptyCells board <= fuel)%nat -> board !! i = Some None ->
  exists z, hardScore fuel board i = Some (Fin z)
            /\ minimax fuel (<[i := Some MarkO]> board) 0 false
               = Some (Fin z, <[i := Some MarkO]> board).
Proof.
  intros Hfuel Hi. unfold hardScore.
  destruct (minimax_total fuel (<[i := Some MarkO]> board) 0 false) as [z Hz].
  { pose proof (emptyCells_fill board i MarkO Hi). lia. }
  rewrite Hz. eauto.
Qed.

(** The loop of [makeHardMove] over the indices from [a], [k] of them: it
    keeps its state when no empty square among them scores above the best
    score so far; else it ends on the first square among them whose score
    none of them exceeds. *)
Lemma hardLoop_seq fuel (board : Board) :
  (emptyCells board <= fuel)%nat ->
  forall k a best move,
    exists best' move',
      for_each (hardBody fuel) (seq a k) (best, move, board)
      = Some (best', move', board)
      /\ ((best' = best /\ move' = move
           /\ forall j z', (a <= j < a + k)%nat -> board !! j = Some None ->
                hardScore fuel board j = Some (Fin z') ->
                num_gt (Fin z') best = false)
          \/ (exists i z,
                (a <= i < a + k)%nat /\ move' = Z.of_nat i /\ best' = Fin z
                /\ board !! i = Some None
                /\ hardScore fuel board i = Some (Fin z)
                /\ num_gt (Fin z) best = true
                /\ forall j z', (a <= j < a + k)%nat ->
                     board !! j = Some None ->
                     hardScore fuel board j = Some (Fin z') ->
                     z' <= z /\ ((j < i)%nat -> z' < z))).
Proof.
  intros Hfuel. induction k as [|k IH]; intros a best move.
  - exists best, move. split; [reflexivity|]. left.
    split; [reflexivity|]. split; [reflexivity|]. intros j z' Hj. lia.
  - simpl. destruct (is_null (board !! a)) eqn:Hn.
    + apply is_null_true in Hn.
      destruct (hardScore_empty fuel board a Hfuel Hn) as (z0 & Hs0 & ->).
      rewrite fill_erase by exact Hn.
      destruct (num_gt (Fin z0) best) eqn:Hgt.
      * destruct (IH (S a) (Fin z0) (Z.of_nat a))
          as (best' & move' & Hrun & Hres).
        exists best', move'. split; [exact Hrun|]. right.
        destruct Hres as [(-> & -> & Hle)
                         |(i & z & Hi & -> & -> & Hnull & Hs & Hgt' & Hall)].
        -- exists a, z0. split; [lia|]. do 5 (split; [assumption || reflexivity|]).
           intros j z' Hj Hjn Hjs.
           destruct (decide (j = a)) as [->|Hne].
           ++ rewrite Hs0 in Hjs. injection Hjs as <-. lia.
           ++ specialize (Hle j z' ltac:(lia) Hjn Hjs). simpl in Hle.
              apply Z.ltb_ge in Hle. lia.
        -- simpl in Hgt'. apply Z.ltb_lt in Hgt'.
           exists i, z. split; [lia|]. do 4 (split; [assumption || reflexivity|]).
           split.
           { apply num_gt_Fin. apply num_gt_Fin in Hgt as [->|(y & -> & Hy)];
               [left; reflexivity|right; exists y; split; [reflexivity|lia]]. }
           intros j z' Hj Hjn Hjs.
           destruct (decide (j = a)) as [->|Hne].
           ++ rewrite Hs0 in Hjs. injection Hjs as <-. lia.
           ++ apply Hall; [lia|assumption..].
      * destruct (IH (S a) best move) as (best' & move' & Hrun & Hres).
        exists best', move'. split; [exact Hrun|].
        destruct Hres as [(-> & -> & Hle)
                         |(i & z & Hi & -> & -> & Hnull & Hs & Hgt' & Hall)].
        -- left. split; [reflexivity|]. split; [reflexivity|].
           intros j z' Hj Hjn Hjs.
           destruct (decide (j = a)) as [->|Hne].
           ++ rewrite Hs0 in Hjs. injection Hjs as <-. exact Hgt.
           ++ apply (Hle j z'); [lia|assumption..].
        -- right. exists i, z. split; [lia|].
           do 5 (split; [assumption || reflexivity|]).
           intros j z' Hj Hjn Hjs.
           destruct (decide (j = a)) as [->|Hne].
           ++ rewrite Hs0 in Hjs. injection Hjs as <-.
              apply num_gt_Fin in Hgt'.
              destruct best as [|y|]; simpl in Hgt; try discriminate.
              ** apply Z.ltb_ge in Hgt.
                 destruct Hgt' as [H|(y' & [= <-] & Hy)]; [discriminate|].
                 lia.
              ** destruct Hgt' as [H|(y' & H & _)]; discriminate.
           ++ apply Hall; [lia|assumption..].
    + assert (board !! a <> Some None) as Hna.
      { intros H. apply is_null_true in H. congruence. }
      destruct (IH (S a) best move) as (best' & move' & Hrun & Hres).
      exists best', move'. split; [exact Hrun|].
      destruct Hres as [(-> & -> & Hle)
                       |(i & z & Hi & -> & -> & Hnull & Hs & Hgt' & Hall)].
      * left. split; [reflexivity|]. split; [reflexivity|].
        intros j z' Hj Hjn Hjs.
        destruct (decide (j = a)) as [->|Hne]; [contradiction|].
        apply (Hle j z'); [lia|assumption..].
      * right. exists i, z. split; [lia|].
        do 5 (split; [assumption || reflexivity|]).
        intros j z' Hj Hjn Hjs.
        destruct (decide (j = a)) as [->|Hne]; [contradiction|].
        apply Hall; [lia|assumption..].
Qed.

(** X11. Outside its two opening answers, on a board with an empty square
    and fuel for its empty squares, [makeHardMove] returns the empty square
    with the highest minimax score, and among equal scores the one with the
    lowest index: every empty square has a score, none scores above the
    returned one, and those before it score strictly below. *)
Theorem hard_picks_first_best (board : Board) (g : rng) (fuel : nat) :
  (emptyCells board <= fuel)%nat ->
  emptyCells board <> 9%nat ->
  ~ (emptyCells board = 8%nat /\ board !! 4%nat = Some (Some MarkX)) ->
  (exists i, board !! i = Some None) ->
  exists i z,
    fst (makeHardMove fuel board g) = Some (Z.of_nat i, board)
    /\ board !! i = Some None
    /\ hardScore fuel board i = Some (Fin z)
    /\ (forall j, board !! j = Some None ->
                  exists z', hardScore fuel board j = Some (Fin z'))
    /\ (forall j z', board !! j = Some None ->
                     hardScore fuel board j = Some (Fin z') ->
                     z' <= z /\ ((j < i)%nat -> z' < z)).
Proof.
  intros Hfuel H9 H8 [i0 Hi0].
  unfold makeHardMove, bind, random, ret.
  destruct (emptyCells board =? 9)%nat eqn:E9;
    [apply Nat.eqb_eq in E9; contradiction|].
  destruct ((emptyCells board =? 8)%nat && is_mark MarkX (board !! 4%nat)) eqn:E8.
  { exfalso. apply H8. apply andb_true_iff in E8 as [E8 Hc].
    split; [apply Nat.eqb_eq, E8|apply is_mark_true, Hc]. }
  cbn [fst]. rewrite hardLoop_unfold.
  destruct (hardLoop_seq fuel board Hfuel (length board) 0%nat NegInf (-1))
    as (best' & move' & Hrun & Hres).
  rewrite Hrun.
  assert (forall j, board !! j = Some None -> (0 <= j < 0 + length board)%nat)
    as Hrange.
  { intros j Hj. apply lookup_lt_Some in Hj. lia. }
  destruct Hres as [(_ & _ & Hle)
                   |(i & z & Hi & -> & -> & Hnull & Hs & _ & Hall)].
  - exfalso.
    destruct (hardScore_empty fuel board i0 Hfuel Hi0) as (z0 & Hs0 & _).
    specialize (Hle i0 z0 (Hrange i0 Hi0) Hi0 Hs0). discriminate.
  - exists i, z. split; [reflexivity|]. split; [exact Hnull|].
    split; [exact Hs|]. split.
    + intros j Hj. destruct (hardScore_empty fuel board j Hfuel Hj) as (z' & Hz' & _).
      eauto.
    + intros j z' Hj Hjs. apply Hall; [apply Hrange, Hj|assumption..].
Qed.

Lemma hard_picks_first_best_witness :
  exists i z,
    fst (makeHardMove 9 boardThreatAt2 (constRng draw0))
    = Some (Z.of_nat i, boardThreatAt2)
    /\ boardThreatAt2 !! i = Some None
    /\ hardScore 9 boardThreatAt2 i = Some (Fin z)
    /\ (forall j, boardThreatAt2 !! j = Some None ->
                  exists z', hardScore 9 boardThreatAt2 j = Some (Fin z'))
    /\ (forall j z', boardThreatAt2 !! j = Some None ->
                     hardScore 9 boardThreatAt2 j = Some (Fin z') ->
                     z' <= z /\ ((j < i)%nat -> z' < z)).
Proof.
  apply (hard_picks_first_best boardThreatAt2 (constRng draw0) 9).
  - vm_compute. lia.
  - vm_compute. lia.
  - vm_compute. intros [H _]. lia.
  - exists 2%nat. reflexivity.
Defined.

(** ** The range of the minimax scores *)

(** A loop of [minimax] whose recursive scores all satisfy [Q], a property
    the combination keeps: its best score satisfies [Q], unless it started
    from [init] and met no empty square. *)
Lemma search_within rec mark combine init (board : Board) (Q : Z -> Prop) :
  (forall i, board !! i = Some None ->
     exists z, rec (<[i := Some mark]> board)
               = Some (Fin z, <[i := Some mark]> board) /\ Q z) ->
  (forall z, combine (Fin z) init = Fin z) ->
  (forall z y, Q z -> Q y -> exists w, combine (Fin z) (Fin y) = Fin w /\ Q w) ->
  forall indices best,
    best = init \/ (exists y, best = Fin y /\ Q y) ->
    exists best',
      for_each (searchBody rec mark combine) indices (best, board)
      = Some (best', board)
      /\ ((exists y, best = Fin y /\ Q y) -> exists y, best' = Fin y /\ Q y)
      /\ ((exists y, best' = Fin y /\ Q y)
          \/ (best' = init
              /\ forall i, i ∈ indices -> board !! i <> Some None)).
Proof.
  intros Hrec Hinit Hcomb. induction indices as [|i rest IH]; intros best Hbest.
  - exists best. split; [reflexivity|]. split; [exact id|].
    destruct Hbest as [->|Hq]; [right|left; exact Hq].
    split; [reflexivity|]. intros i Hi. inversion Hi.
  - simpl. destruct (is_null (board !! i)) eqn:Hn.
    + apply is_null_true in Hn. destruct (Hrec i Hn) as (z & -> & Hz).
      rewrite fill_erase by exact Hn.
      assert (exists y, combine (Fin z) best = Fin y /\ Q y) as Hnew.
      { destruct Hbest as [->|(y & -> & Hy)].
        - rewrite Hinit. eauto.
        - apply Hcomb; assumption. }
      destruct (IH (combine (Fin z) best) (or_intror Hnew))
        as (best' & Hrun & Hkeep & _).
      exists best'. split; [exact Hrun|]. split; [intros _|left]; apply Hkeep, Hnew.
    + destruct (IH best Hbest) as (best' & Hrun & Hkeep & Hres).
      exists best'. split; [exact Hrun|]. split; [exact Hkeep|].
      destruct Hres as [Hq|[-> Hno]]; [left; exact Hq|].
      right. split; [reflexivity|]. intros j Hj.
      apply elem_of_cons in Hj as [->|Hj]; [|apply Hno, Hj].
      intros Heq. apply is_null_true in Heq. congruence.
Qed.

Lemma scoreInRange_bounds (board : Board) depth z :
  depth <= 10 -> scoreInRange board depth z -> depth - 10 <= z <= 10 - depth.
Proof.
  unfold scoreInRange. destruct (evaluate board) as [[]| |]; lia.
Qed.

Lemma minimax_in_range fuel :
  forall (board : Board) depth isMaximizing,
    (emptyCells board < fuel)%nat ->
    depth + Z.of_nat (emptyCells board) <= 10 ->
    exists z,
      minimax fuel board depth isMaximizing = Some (Fin z, board)
      /\ scoreInRange board depth z.
Proof.
  induction fuel as [|fuel IH]; intros board depth isMaximizing Hfuel Hdepth;
    [lia|].
  rewrite minimax_unfold. unfold scoreInRange, evaluate.
  destruct (calculateWinner board) as [[[] l]|]; [eauto..|].
  destruct (every_nonnull board) eqn:Hev; [eauto|].
  apply every_nonnull_false in Hev as [i0 Hi0].
  assert (i0 ∈ seq 0 (length board)) as Hin.
  { apply elem_of_seq. apply lookup_lt_Some in Hi0. lia. }
  set (Q := fun z => depth - 9 <= z <= 9 - depth).
  assert (forall mark isMax i, board !! i = Some None ->
            exists z, minimax fuel (<[i := Some mark]> board) (depth + 1) isMax
                      = Some (Fin z, <[i := Some mark]> board) /\ Q z) as Hrec.
  { intros mark isMax i Hi.
    pose proof (emptyCells_fill board i mark Hi) as Hfill.
    destruct (IH (<[i := Some mark]> board) (depth + 1) isMax) as (z & Hz & Hr);
      [lia|lia|].
    exists z. split; [exact Hz|].
    apply scoreInRange_bounds in Hr; [|lia]. unfold Q. lia. }
  destruct isMaximizing.
  - destruct (search_within (fun b => minimax fuel b (depth + 1) false)
                MarkO num_max NegInf board Q (Hrec MarkO false))
      with (indices := seq 0 (length board)) (best := NegInf)
      as (best' & Hrun & _ & Hres).
    + reflexivity.
    + intros z y Hz Hy. exists (Z.max z y). split; [reflexivity|].
      unfold Q in *. lia.
    + left. reflexivity.
    + rewrite Hrun. destruct Hres as [(y & -> & Hy)|[_ Hno]]; [eauto|].
      exfalso. exact (Hno i0 Hin Hi0).
  - destruct (search_within (fun b => minimax fuel b (depth + 1) true)
                MarkX num_min PosInf board Q (Hrec MarkX true))
      with (indices := seq 0 (length board)) (best := PosInf)
      as (best' & Hrun & _ & Hres).
    + reflexivity.
    + intros z y Hz Hy. exists (Z.min z y). split; [reflexivity|].
      unfold Q in *. lia.
    + left. reflexivity.
    + rewrite Hrun. destruct Hres as [(y & -> & Hy)|[_ Hno]]; [eauto|].
      exfalso. exact (Hno i0 Hin Hi0).
Qed.

(** X12. On a board whose empty squares, added to the depth, number at
    most ten (so on every board of nine squares at the depth the search
    reaches it), [minimax] with fuel for the empty squares returns: on a
    finished board [10 - depth] for a win of ["O"], [depth - 10] for a win
    of ["X"] and [0] for a draw; on a board in progress a score between
    [depth - 9] and [9 - depth].  A board in progress thus never scores as
    an immediate win or loss does at its depth. *)
Theorem minimax_score_range (fuel : nat) (board : Board) (depth : Z)
  (isMaximizing : bool) :
  (emptyCells board < fuel)%nat ->
  depth + Z.of_nat (emptyCells board) <= 10 ->
  exists z,
    minimax fuel board depth isMaximizing = Some (Fin z, board)
    /\ scoreInRange board depth z
    /\ depth - 10 <= z <= 10 - depth.
Proof.
  intros Hfuel Hdepth.
  destruct (minimax_in_range fuel board depth isMaximizing Hfuel Hdepth)
    as (z & Hz & Hr).
  exists z. split; [exact Hz|]. split; [exact Hr|].
  apply scoreInRange_bounds in Hr; [exact Hr|lia].
Qed.

Lemma minimax_score_range_witness :
  exists z,
    minimax 9 boardThreatAt2 0 true = Some (Fin z, boardThreatAt2)
    /\ scoreInRange boardThreatAt2 0 z
    /\ 0 - 10 <= z <= 10 - 0.
Proof.
  apply (minimax_score_range 9 boardThreatAt2 0 true);
    [vm_compute; lia|vm_compute; discriminate].
Defined.

(** X13. So at the top level of [makeHardMove], on a board of nine squares
    without a complete line, an empty square scores 10 exactly when it is
    an immediate winning move of the computer, and every other empty square
    scores at most 9. *)
Theorem hard_score_ten_iff_win (fuel : nat) (board : Board) (i : nat) :
  length board = 9%nat -> (9 <= fuel)%nat ->
  calculateWinner board = None ->
  board !! i = Some None ->
  exists z,
    hardScore fuel board i = Some (Fin z)
    /\ -10 <= z <= 10
    /\ (z = 10 <-> winningMove board MarkO i).
Proof.
  intros Hlen Hfuel Hnone Hi.
  pose proof (emptyCells_fill board i MarkO Hi) as Hfill.
  pose proof (emptyCells_le_length board) as Hle.
  destruct (minimax_in_range fuel (<[i := Some MarkO]> board) 0 false)
    as (z & Hz & Hr); [lia|lia|].
  unfold hardScore. rewrite Hz. exists z. split; [reflexivity|].
  assert (-10 <= z <= 10) as Hb.
  { apply scoreInRange_bounds in Hr; lia. }
  split; [lia|].
  assert (none_complete lines board) as Hnc
      by (apply calculateWinner_from_None, Hnone).
  unfold scoreInRange, evaluate in Hr.
  destruct (calculateWinner (<[i := Some MarkO]> board)) as [[p l]|] eqn:Ew.
  - pose proof (calculateWinner_line _ _ _ Ew) as [Hl Hc].
    assert (p = MarkO) as ->.
    { destruct p; [|reflexivity]. exfalso.
      apply complete_fill_other in Hc; [|exact Hi|discriminate].
      exact (Hnc l MarkX Hl Hc). }
    split; [|intros _; lia]. intros _. split; [exact Hi|].
    apply Exists_exists. exists l. split; [exact Hl|].
    split; [exact Hc|apply Hnc, Hl].
  - assert (z <> 10) as Hz10 by (destruct (every_nonnull _); lia).
    split; [lia|]. intros [_ Hex]. exfalso.
    apply Exists_exists in Hex as (l & Hl & Hc & _).
    apply calculateWinner_from_None in Ew. exact (Ew l MarkO Hl Hc).
Qed.

Lemma hard_score_ten_iff_win_witness :
  exists z,
    hardScore 9 boardWinAt2 2 = Some (Fin z)
    /\ -10 <= z <= 10
    /\ (z = 10 <-> winningMove boardWinAt2 MarkO 2).
Proof.
  apply (hard_score_ten_iff_win 9 boardWinAt2 2);
    [reflexivity|lia|reflexivity|reflexivity].
Defined.

(** ** The session never sticks, and a finished game stays finished *)

(** X14. A reachable session whose game is not over can always take a
    move: some transition writes a mark into an empty square, so the number
    of empty squares goes down by one.  It is a click of the player when the
    turn is the player's, and the computer's move otherwise. *)
Theorem unfinished_game_can_move (s : Session) :
  reachable s -> gameOver s = false ->
  exists s', step s s'
             /\ S (emptyCells (squares s')) = emptyCells (squares s)
             /\ isPlayerTurn s' = negb (isPlayerTurn s).
Proof.
  intros Hreach Hnot. pose proof (reachable_settled s Hreach) as Hset.
  pose proof Hset as (Hlen & _ & _).
  pose proof (settled_gameOver s Hset Hnot) as Hprog.
  destruct (isPlayerTurn s) eqn:Hturn.
  - destruct (evaluate_InProgress _ Hprog) as [i Hi].
    assert (i < 9)%nat as Hi9 by (apply lookup_lt_Some in Hi; lia).
    exists (statusEffect (handleClick i s)). split; [apply step_click, Hi9|].
    rewrite statusEffect_squares, statusEffect_isPlayerTurn.
    unfold handleClick. rewrite Hnot, Hi, Hturn. simpl.
    split; [apply emptyCells_fill, Hi|reflexivity].
  - destruct (makeComputerMove_total 9 s (constRng draw0)) as [s1 Hs1].
    { apply fuel_covers_board; [exact Hlen|lia]. }
    exists (statusEffect s1). split; [eapply step_computer; eassumption|].
    destruct (makeComputerMove_cases _ _ _ _ Hlen Hprog Hs1)
      as (i & Hnull & _ & ->).
    rewrite statusEffect_squares, statusEffect_isPlayerTurn. simpl.
    split; [apply emptyCells_fill, Hnull|reflexivity].
Qed.

Lemma unfinished_game_can_move_witness :
  exists s', step afterCentreClick s'
             /\ S (emptyCells (squares s')) = emptyCells (squares afterCentreClick)
             /\ isPlayerTurn s' = negb (isPlayerTurn afterCentreClick).
Proof.
  apply (unfinished_game_can_move afterCentreClick afterCentreClick_reachable).
  reflexivity.
Defined.

(** X15. Once the game is over in a reachable session, no transition
    changes the state except a reset or a change of difficulty, which give
    the fresh session: clicks are ignored and the computer does not move. *)
Theorem finished_game_only_resets (s s' : Session) :
  reachable s -> gameOver s = true -> step s s' ->
  s' = s \/ s' = freshSession (difficulty s').
Proof.
  intros Hreach Hover Hstep.
  pose proof (reachable_settled s Hreach) as (_ & Hfix & _).
  destruct Hstep as [i Hi|fuel g s1 Hturn Hnot Hmove| |value].
  - left. unfold handleClick. rewrite Hover. simpl. exact Hfix.
  - congruence.
  - right. reflexivity.
  - right. reflexivity.
Qed.

Lemma drawnGame_click : step drawnGame (clickAndSettle 0 drawnGame).
Proof. apply (step_click _ 0). lia. Qed.

Lemma finished_game_only_resets_witness :
  clickAndSettle 0 drawnGame = drawnGame
  \/ clickAndSettle 0 drawnGame
     = freshSession (difficulty (clickAndSettle 0 drawnGame)).
Proof.
  apply (finished_game_only_resets drawnGame (clickAndSettle 0 drawnGame)
           drawnGame_reachable); [reflexivity|apply drawnGame_click].
Defined.

(** X16. The status effect touches the game-over flag and the status text
    only; it never clears the flag; and a second run changes nothing, so
    the renders it causes come to an end. *)
Theorem status_effect_stable (s : Session) :
  squares (statusEffect s) = squares s
  /\ isPlayerTurn (statusEffect s) = isPlayerTurn s
  /\ difficulty (statusEffect s) = difficulty s
  /\ (gameOver s = true -> gameOver (statusEffect s) = true)
  /\ statusEffect (statusEffect s) = statusEffect s.
Proof.
  split; [apply statusEffect_squares|].
  split; [apply statusEffect_isPlayerTurn|].
  split; [apply statusEffect_difficulty|].
  split; [|apply statusEffect_idempotent].
  intros Hover. rewrite statusEffect_gameOver.
  destruct (evaluate (squares s)); auto.
Qed.

(** ** The list of available moves, and the opening answers *)

Lemma availableFrom_shift (board : Board) k :
  availableFrom k board
  = (fun m => m + Z.of_nat k) <$> availableFrom 0 board.
Proof.
  revert k. induction board as [|y board IH]; intros k; [reflexivity|].
  unfold availableFrom. rewrite !imap_cons, !filter_cons.
  rewrite (imap_ext _ (fun i (square : SquareValue) =>
             if bool_decide (square = None)
             then Z.of_nat (S k + i) else -1) board)
    by (intros i sq _; simpl; destruct (bool_decide _);
        [f_equal; lia|reflexivity]).
  rewrite (imap_ext ((fun i (square : SquareValue) =>
             if bool_decide (square = None)
             then Z.of_nat (0 + i) else -1) ∘ S)
            (fun i (square : SquareValue) =>
             if bool_decide (square = None)
             then Z.of_nat (1 + i) else -1) board)
    by (intros i sq _; reflexivity).
  fold (availableFrom (S k) board). fold (availableFrom 1 board).
  rewrite (IH (S k)), (IH 1%nat).
  assert ((fun m => m + Z.of_nat (S k)) <$> availableFrom 0 board
          = (fun m => m + Z.of_nat k)
              <$> ((fun m => m + Z.of_nat 1) <$> availableFrom 0 board)) as ->.
  { rewrite <- list_fmap_compose. apply list_fmap_ext. intros i m _. simpl. lia. }
  destruct y as [m|]; simpl; repeat case_decide; try lia;
    rewrite ?fmap_cons; try reflexivity; f_equal; lia.
Qed.

Lemma availableMoves_cons (x : SquareValue) (board : Board) :
  availableMoves (x :: board)
  = (if bool_decide (x = None) then [0] else [])
    ++ ((fun m => m + 1) <$> availableMoves board).
Proof.
  change (availableMoves (x :: board)) with (availableFrom 0 (x :: board)).
  change (availableMoves board) with (availableFrom 0 board).
  unfold availableFrom at 1. rewrite imap_cons, filter_cons.
  rewrite (imap_ext ((fun i (square : SquareValue) =>
             if bool_decide (square = None)
             then Z.of_nat (0 + i) else -1) ∘ S)
            (fun i (square : SquareValue) =>
             if bool_decide (square = None)
             then Z.of_nat (1 + i) else -1) board)
    by (intros i sq _; reflexivity).
  fold (availableFrom 1 board). rewrite (availableFrom_shift board 1).
  destruct x as [m|]; simpl; repeat case_decide; try lia; reflexivity.
Qed.

(** X17. The list of available moves that [makeEasyMove] and
    [makeMediumMove] draw from holds the indices of the empty squares, each
    once, in ascending order: its length is the number of empty squares,
    and a later position holds a larger index. *)
Theorem availableMoves_ascending (board : Board) :
  length (availableMoves board) = emptyCells board
  /\ (forall m, m ∈ availableMoves board <->
                exists i, m = Z.of_nat i /\ board !! i = Some None)
  /\ (forall i j m n, (i < j)%nat ->
        availableMoves board !! i = Some m ->
        availableMoves board !! j = Some n -> m < n).
Proof.
  split; [|split].
  - induction board as [|x board IH]; [reflexivity|].
    rewrite availableMoves_cons, length_app, length_fmap, IH.
    unfold emptyCells. rewrite filter_cons.
    destruct x as [m|]; simpl; repeat case_decide; try congruence;
      reflexivity.
  - apply elem_of_availableMoves.
  - induction board as [|x board IH]; intros i j m n Hij.
    { intros H. inversion H. }
    rewrite availableMoves_cons.
    assert (forall k m', ((fun m => m + 1) <$> availableMoves board) !! k
                         = Some m' ->
              exists m0, availableMoves board !! k = Some m0
                         /\ m' = m0 + 1 /\ 0 <= m0) as Htail.
    { intros k m'. rewrite list_lookup_fmap.
      destruct (availableMoves board !! k) as [m0|] eqn:E; [|discriminate].
      intros [= <-]. exists m0. split; [reflexivity|]. split; [reflexivity|].
      apply list_elem_of_lookup_2, elem_of_availableMoves in E as (i0 & -> & _).
      lia. }
    destruct x as [p|]; simpl.
    + intros Hi Hj. apply Htail in Hi as (m0 & Hi & -> & _).
      apply Htail in Hj as (n0 & Hj & -> & _).
      pose proof (IH i j m0 n0 Hij Hi Hj). lia.
    + destruct j as [|j]; [lia|]. simpl. intros Hi Hj.
      apply Htail in Hj as (n0 & Hj & -> & Hn0).
      destruct i as [|i]; simpl in Hi.
      * injection Hi as <-. lia.
      * apply Htail in Hi as (m0 & Hi & -> & _).
        pose proof (IH i j m0 n0 ltac:(lia) Hi Hj). lia.
Qed.

(** X18. The two opening answers of [makeHardMove] need no search and no
    fuel: with nine empty squares it returns 4; with eight and ["X"] on the
    centre it returns the corner of [[0, 2, 6, 8]] whose position is the
    floor of four times the draw, a product that is exact in doubles, so
    each corner on a quarter of the draws.  On a board of nine squares the
    square returned is empty. *)
Theorem hard_opening_answers (board : Board) (g : rng) (fuel : nat) :
  (emptyCells board = 9%nat ->
   fst (makeHardMove fuel board g) = Some (4, board))
  /\ (emptyCells board = 8%nat -> board !! 4%nat = Some (Some MarkX) ->
      exists corner,
        [0; 2; 6; 8] !! floor_mul (g 0%nat) 4 = Some corner
        /\ fst (makeHardMove fuel board g) = Some (corner, board))
  /\ (forall k : nat,
        floor_mul (g 0%nat) 4 = k <->
        (inject_Z (Z.of_nat k) <= draw_val (g 0%nat) * inject_Z 4
         /\ draw_val (g 0%nat) * inject_Z 4 < inject_Z (Z.of_nat k + 1))%Q)
  /\ (length board = 9%nat ->
      emptyCells board = 9%nat
      \/ (emptyCells board = 8%nat /\ board !! 4%nat = Some (Some MarkX)) ->
      exists i, fst (makeHardMove fuel board g) = Some (Z.of_nat i, board)
                /\ board !! i = Some None).
Proof.
  assert (emptyCells board = 9%nat ->
          fst (makeHardMove fuel board g) = Some (4, board)) as H9.
  { intros E. unfold makeHardMove. rewrite E. reflexivity. }
  assert (emptyCells board = 8%nat -> board !! 4%nat = Some (Some MarkX) ->
          exists corner,
            [0; 2; 6; 8] !! floor_mul (g 0%nat) 4 = Some corner
            /\ fst (makeHardMove fuel board g) = Some (corner, board)) as H8.
  { intros E Hc. unfold makeHardMove. rewrite E, Hc. simpl.
    unfold bind, random, ret. cbn [fst].
    exists (pick [0; 2; 6; 8] (g 0%nat)). split; [|reflexivity].
    apply (pick_lookup [0; 2; 6; 8]). discriminate. }
  split; [exact H9|]. split; [exact H8|]. split.
  { intros k. apply (floor_mul_quarters (g 0%nat) k). }
  intros Hlen [E|[E Hc]].
  - exists 4%nat. split; [apply H9, E|]. apply emptyCells_all; lia.
  - destruct (H8 E Hc) as (corner & Hk & Hmove).
    assert (forall i, (i < 9)%nat -> i <> 4%nat -> board !! i = Some None)
      as Hothers.
    { intros i Hi Hne. eapply emptyCells_all_but_one; eauto; lia. }
    apply list_elem_of_lookup_2 in Hk.
    apply elem_of_cons in Hk as [->|Hk];
      [exists 0%nat; split; [exact Hmove|apply Hothers; lia]|].
    apply elem_of_cons in Hk as [->|Hk];
      [exists 2%nat; split; [exact Hmove|apply Hothers; lia]|].
    apply elem_of_cons in Hk as [->|Hk];
      [exists 6%nat; split; [exact Hmove|apply Hothers; lia]|].
    apply elem_of_cons in Hk as [->|Hk];
      [exists 8%nat; split; [exact Hmove|apply Hothers; lia]|].
    inversion Hk.
Qed.
